(** * nlparse2: a backtracking parser-combinator engine

    A model of [exercise-parsing/nlparse2.py]: the [Constituent] tree, the
    parser classes ([WordParser], [SeqParser], [AltParser], [TagParser],
    [FilterParser], [RecursiveParser], [WholeParser], [StarParser]), the
    small English grammar built from them, and the properties of the engine.

    Python generators are lazy and may raise or run forever.  A generator is
    modelled by the finite prefix of results that it has yielded when a
    given amount of fuel is spent, together with the way it ended.  The
    fuel of a call bounds the nesting depth of the calls below it, as the
    recursion limit of the interpreter does (with no fixed value here): a
    call that runs to its end with the fuel [n] is a call that ends when the
    interpreter allows that depth, and a recursion without end is a
    computation that no amount of fuel completes. *)

From Stdlib Require Import List String Ascii Bool Arith Lia.
Import ListNotations.
Open Scope string_scope.
Open Scope list_scope.

Set Implicit Arguments.
Set Warnings "-register-all".

(* ================================================================== *)
(** * Generators *)

(** What a consumer sees when it pulls from a generator: [Yield a g] is one
    value followed by the rest, [Stop] is normal exhaustion, [Raise] is an
    exception leaving the generator (the only one the engine can raise is
    the [IndexError] of a filter predicate), and [OutOfFuel] marks the point
    where the fuel of the evaluation ran out: nothing is known beyond it. *)
Inductive Gen (A : Type) : Type :=
| Stop
| Yield (a : A) (g : Gen A)
| Raise
| OutOfFuel.

Arguments Stop {A}.
Arguments Raise {A}.
Arguments OutOfFuel {A}.

Section Generators.
Variables A B : Type.

(** [yield from g] followed by the statements [k]. *)
Fixpoint yield_from (g k : Gen A) : Gen A :=
  match g with
  | Stop => k
  | Yield a g' => Yield a (yield_from g' k)
  | Raise => Raise
  | OutOfFuel => OutOfFuel
  end.

(** [for a in g: body a], where the body is itself a piece of generator
    code.  The body of the first value runs before the second value is
    requested from [g]. *)
Fixpoint for_each (g : Gen B) (body : B -> Gen A) : Gen A :=
  match g with
  | Stop => Stop
  | Yield b g' => yield_from (body b) (for_each g' body)
  | Raise => Raise
  | OutOfFuel => OutOfFuel
  end.

(** The values yielded so far. *)
Fixpoint items (g : Gen A) : list A :=
  match g with
  | Yield a g' => a :: items g'
  | _ => []
  end.

(** The generator ended with an exception. *)
Fixpoint raises (g : Gen A) : bool :=
  match g with
  | Yield _ g' => raises g'
  | Raise => true
  | _ => false
  end.

(** The generator that yields the elements of a list and stops. *)
Fixpoint of_list (l : list A) : Gen A :=
  match l with
  | [] => Stop
  | a :: l' => Yield a (of_list l')
  end.

(** [g] is an approximation of [h]: they agree up to the point where the
    fuel of [g] ran out. *)
Fixpoint approx (g h : Gen A) : Prop :=
  match g with
  | OutOfFuel => True
  | Stop => h = Stop
  | Raise => h = Raise
  | Yield a g' =>
      match h with
      | Yield b h' => a = b /\ approx g' h'
      | _ => False
      end
  end.
End Generators.

Unset Implicit Arguments.

(* ================================================================== *)
(** * Constituents *)

(** [class Constituent]: a tag (or [None]), the child constituents and the
    linear list of words. *)
Inductive Constituent : Type :=
| mkConstituent (tag : option string) (children : list Constituent)
                (words : list string).

Definition tag (c : Constituent) : option string :=
  match c with mkConstituent t _ _ => t end.
Definition children (c : Constituent) : list Constituent :=
  match c with mkConstituent _ ch _ => ch end.
Definition words (c : Constituent) : list string :=
  match c with mkConstituent _ _ ws => ws end.

(** [Constituent.__add__]. *)
Definition Constituent_add (self other : Constituent) : Constituent :=
  mkConstituent None [self; other] (words self ++ words other).

(** [Constituent.__matmul__]. *)
Definition Constituent_matmul (self : Constituent) (t : string) : Constituent :=
  mkConstituent (Some t) (children self) (words self).

Declare Scope constituent_scope.
Delimit Scope constituent_scope with cons.
Infix "+" := Constituent_add : constituent_scope.
Infix "@@" := Constituent_matmul (at level 35) : constituent_scope.

(** Comparison of tags ([str] or [None]) and of tuples. *)
Definition tag_eqb (a b : option string) : bool :=
  match a, b with
  | None, None => true
  | Some x, Some y => String.eqb x y
  | _, _ => false
  end.

Section TupleEq.
Variable A : Type.
Variable eqb : A -> A -> bool.

(** [==] on tuples: same length and equal elements. *)
Fixpoint tuple_eqb (l1 l2 : list A) : bool :=
  match l1, l2 with
  | [], [] => true
  | x :: l1', y :: l2' => eqb x y && tuple_eqb l1' l2'
  | _, _ => false
  end.
End TupleEq.

Arguments tuple_eqb {A} eqb l1 l2.

(** The values a constituent can be compared with. *)
Inductive PyValue : Type :=
| PyNone
| PyStr (s : string)
| PyInt (n : nat)
| PyTuple (l : list string)
| PyConstituent (c : Constituent).

(** The comparison of two constituents inside [__eq__]: tag, children and
    words, where comparing the children tuples compares the children with
    [__eq__] again. *)
Fixpoint Constituent_eqb (self other : Constituent) {struct self} : bool :=
  match self, other with
  | mkConstituent t1 ch1 ws1, mkConstituent t2 ch2 ws2 =>
      tag_eqb t1 t2
      && tuple_eqb Constituent_eqb ch1 ch2
      && tuple_eqb String.eqb ws1 ws2
  end.

(** [Constituent.__eq__]. *)
Definition Constituent_eq (self : Constituent) (other : PyValue) : bool :=
  match other with
  | PyConstituent o => Constituent_eqb self o
  | _ => false
  end.

(** [Constituent.__ne__]. *)
Definition Constituent_ne (self : Constituent) (other : PyValue) : bool :=
  negb (Constituent_eq self other).

(* ================================================================== *)
(** * Parsers *)

Definition Tokens := list string.
Definition Result := (Constituent * Tokens)%type.

(** The parser objects.  [FilterParser] carries its overridable
    [predicate]; the predicate answers [None] when it raises.
    [RecursiveParser fp] holds the body that [fp] builds, in which [Self k]
    stands for the argument of the [k]-th enclosing [fp] (0 is the
    nearest).  The source has no placeholder outside a [RecursiveParser];
    here such a placeholder yields nothing. *)
Inductive Parser : Type :=
| WordParser (w : string)
| SeqParser (p1 p2 : Parser)
| AltParser (p1 p2 : Parser)
| TagParser (t : string) (p : Parser)
| FilterParser (predicate : Constituent -> option bool) (p : Parser)
| RecursiveParser (fp : Parser)
| Self (k : nat)
| WholeParser (p : Parser)
| StarParser (p : Parser).

(** [fp(self)]: the body of [fp] with its argument replaced by [self]. *)
Fixpoint apply_fp (k : nat) (self body : Parser) : Parser :=
  match body with
  | WordParser w => WordParser w
  | SeqParser p1 p2 => SeqParser (apply_fp k self p1) (apply_fp k self p2)
  | AltParser p1 p2 => AltParser (apply_fp k self p1) (apply_fp k self p2)
  | TagParser t p => TagParser t (apply_fp k self p)
  | FilterParser predicate p => FilterParser predicate (apply_fp k self p)
  | RecursiveParser fp => RecursiveParser (apply_fp (S k) self fp)
  | Self j => if Nat.eqb j k then self else Self j
  | WholeParser p => WholeParser (apply_fp k self p)
  | StarParser p => StarParser (apply_fp k self p)
  end.

(** The [while] loop of [StarParser.__call__].  [p] is the underlying parser
    already applied to its fuel; [children] and [tokens] are the two local
    variables of the loop.  Only the first result of [p] is requested. *)
Fixpoint star_loop (p : Tokens -> Gen Result) (fuel : nat)
         (children : list Constituent) (tokens : Tokens) : Gen Result :=
  match tokens with
  | [] =>
      Yield (mkConstituent None children (flat_map words children), tokens) Stop
  | _ :: _ =>
      match fuel with
      | 0 => OutOfFuel
      | S fuel' =>
          match p tokens with
          | Yield (tree, remainder) _ =>
              star_loop p fuel' (children ++ [tree]) remainder
          | Stop =>
              Yield (mkConstituent None children (flat_map words children),
                     tokens) Stop
          | Raise => Raise
          | OutOfFuel => OutOfFuel
          end
      end
  end.

(** [p(tokens)] for every parser class.  Each call of a [__call__] method
    and each turn of the loop of [StarParser] costs one unit of fuel. *)
Fixpoint call (fuel : nat) (p : Parser) (tokens : Tokens) {struct fuel}
  : Gen Result :=
  match fuel with
  | 0 => OutOfFuel
  | S fuel' =>
      match p with
      | WordParser w =>
          match tokens with
          | t :: rest =>
              if String.eqb t w
              then Yield (mkConstituent None [] [w], rest) Stop
              else Stop
          | [] => Stop
          end
      | SeqParser p1 p2 =>
          for_each (call fuel' p1 tokens) (fun '(c1, tokens1) =>
            for_each (call fuel' p2 tokens1) (fun '(c2, tokens2) =>
              Yield ((c1 + c2)%cons, tokens2) Stop))
      | AltParser p1 p2 =>
          yield_from (call fuel' p1 tokens) (call fuel' p2 tokens)
      | TagParser t p0 =>
          for_each (call fuel' p0 tokens) (fun '(c, tokens1) =>
            Yield ((c @@ t)%cons, tokens1) Stop)
      | FilterParser predicate p0 =>
          for_each (call fuel' p0 tokens) (fun '(c, tokens1) =>
            match predicate c with
            | Some true => Yield (c, tokens1) Stop
            | Some false => Stop
            | None => Raise
            end)
      | RecursiveParser fp =>
          call fuel' (apply_fp 0 (RecursiveParser fp) fp) tokens
      | Self _ => Stop
      | WholeParser p0 =>
          for_each (call fuel' p0 tokens) (fun '(c, tokens1) =>
            match tokens1 with
            | [] => Yield (c, tokens1) Stop
            | _ :: _ => Stop
            end)
      | StarParser p0 => star_loop (call fuel' p0) fuel' [] tokens
      end
  end.

(** Shorthands of the source.  [class StarParser] does not derive from
    [Parser]: a repetition is called like any parser and can be the operand
    of a constructor, or the right operand of an operator of a [Parser],
    but it has no operators of its own, so that with a repetition on the
    left only the constructor form [SeqParser (star p) q] exists. *)
Definition word (w : string) : Parser := WordParser w.
Definition recursive (fp : Parser) : Parser := RecursiveParser fp.
Definition whole (p : Parser) : Parser := WholeParser p.
Definition star (p : Parser) : Parser := StarParser p.

Declare Scope parser_scope.
Delimit Scope parser_scope with parser.
Bind Scope parser_scope with Parser.
Infix "+" := SeqParser : parser_scope.
Infix "||" := AltParser : parser_scope.
Notation "p @@ t" := (TagParser t p) : parser_scope.

(* ================================================================== *)
(** * The grammar *)

(** [re.match] of a pattern made of one character class: the subject must
    start with a character of the class (or, for a negated class, with a
    character outside it). *)
Definition re_match_class (negated : bool) (class : list ascii) (s : string)
  : bool :=
  match s with
  | EmptyString => false
  | String ch _ =>
      xorb negated (existsb (Ascii.eqb ch) class)
  end.

Definition aeiou : list ascii := ["a"; "e"; "i"; "o"; "u"]%char.

(** The default [FilterParser.predicate]. *)
Definition FilterParser_predicate (c : Constituent) : option bool := Some true.

(** [FilterValidArticle.predicate]; [None] is the [IndexError] of
    [c.words[0]] or [c.words[1]]. *)
Definition FilterValidArticle_predicate (c : Constituent) : option bool :=
  match children c with
  | [] => Some true
  | c0 :: _ =>
      if negb (tag_eqb (tag c0) (Some "Compl")) then Some true
      else
        match nth_error (words c) 0 with
        | None => None
        | Some w0 =>
            if String.eqb w0 "a" then
              match nth_error (words c) 1 with
              | None => None
              | Some w1 => Some (re_match_class true aeiou w1)
              end
            else if String.eqb w0 "an" then
              match nth_error (words c) 1 with
              | None => None
              | Some w1 => Some (re_match_class false aeiou w1)
              end
            else Some true
        end
  end.

Definition FilterValidArticle (p : Parser) : Parser :=
  FilterParser FilterValidArticle_predicate p.

(** The module-level parsers of the source, under their own names. *)
Module Grammar.

Definition N : Parser :=
  ((word "fox" || word "wolf" || word "ant" || word "table") @@ "N")%parser.
Definition Adj : Parser :=
  ((word "quick" || word "brown" || word "table" || word "caught" ||
    word "adorable") @@ "Adj")%parser.
Definition Compl : Parser :=
  ((word "a" || word "an" || word "the") @@ "Compl")%parser.
Definition V : Parser :=
  ((word "jump" || word "jumped" || word "caught") @@ "V")%parser.

Definition NP0 : Parser := recursive ((N || (Adj + Self 0)) @@ "NP")%parser.
Definition NP : Parser := (FilterValidArticle (Compl + NP0) @@ "NP")%parser.
Definition VP : Parser := (V @@ "VP")%parser.
Definition S : Parser := ((NP + VP) @@ "S")%parser.

End Grammar.

(* ================================================================== *)
(** * What a call produces *)

(** [p(tokens)] runs to its end and yields exactly the results [l]. *)
Definition produces (p : Parser) (tokens : Tokens) (l : list Result) : Prop :=
  exists fuel, call fuel p tokens = of_list l.

(** The first thing a consumer of [p(tokens)] obtains: a first result, or
    the end of the generator. *)
Definition first_result (p : Parser) (tokens : Tokens) (o : option Result)
  : Prop :=
  exists fuel,
    match o with
    | Some r => exists g, call fuel p tokens = Yield r g
    | None => call fuel p tokens = Stop
    end.

(* ================================================================== *)
(** * Derivations *)

(** [derives p T c rest]: the pair [(c, rest)] is among the results of
    [p(T)].  One rule for each [yield] statement of the source;
    [derives_star p T cs rest] follows the loop of [StarParser] from [T]
    through the children [cs] to the tokens [rest]. *)
Inductive derives : Parser -> Tokens -> Constituent -> Tokens -> Prop :=
| derives_word w rest :
    derives (WordParser w) (w :: rest) (mkConstituent None [] [w]) rest
| derives_seq p1 p2 T c1 T1 c2 T2 :
    derives p1 T c1 T1 -> derives p2 T1 c2 T2 ->
    derives (SeqParser p1 p2) T (c1 + c2)%cons T2
| derives_alt_l p1 p2 T c T1 :
    derives p1 T c T1 -> derives (AltParser p1 p2) T c T1
| derives_alt_r p1 p2 T c T1 :
    derives p2 T c T1 -> derives (AltParser p1 p2) T c T1
| derives_tag t p T c T1 :
    derives p T c T1 -> derives (TagParser t p) T (c @@ t)%cons T1
| derives_filter predicate p T c T1 :
    derives p T c T1 -> predicate c = Some true ->
    derives (FilterParser predicate p) T c T1
| derives_recursive fp T c T1 :
    derives (apply_fp 0 (RecursiveParser fp) fp) T c T1 ->
    derives (RecursiveParser fp) T c T1
| derives_whole p T c :
    derives p T c [] -> derives (WholeParser p) T c []
| derives_star_parser p T cs rest :
    derives_star p T cs rest ->
    derives (StarParser p) T
            (mkConstituent None cs (flat_map words cs)) rest
with derives_star : Parser -> Tokens -> list Constituent -> Tokens -> Prop :=
| derives_star_nil p T : derives_star p T [] T
| derives_star_cons p T c T1 cs rest :
    derives p T c T1 -> derives_star p T1 cs rest ->
    derives_star p T (c :: cs) rest.

Scheme derives_mut := Minimality for derives Sort Prop
  with derives_star_mut := Minimality for derives_star Sort Prop.

Combined Scheme derives_mutind from derives_mut, derives_star_mut.

(* ================================================================== *)
(** * Notions used by the properties *)

(** The invariant of [Constituent], at a node and at every node below it:
    a node that has children spans the words of its children, in order. *)
Fixpoint tree_inv (c : Constituent) : Prop :=
  match c with
  | mkConstituent _ ch ws =>
      (ch <> [] -> ws = flat_map words ch)
      /\ (fix all (l : list Constituent) : Prop :=
            match l with
            | [] => True
            | x :: l' => tree_inv x /\ all l'
            end) ch
  end.

(** The nested cross product of the results [l1] of [p1] with the results
    of [p2], where [r2 T1] lists the results of [p2] on the remainder [T1]:
    for each [(c1, T1)] in order and each [(c2, T2)] of [r2 T1] in order,
    the constituent without tag whose children are [c1] and [c2] and whose
    words are the words of [c1] followed by the words of [c2], with the
    remainder [T2]. *)
Definition cross_product (l1 : list Result) (r2 : Tokens -> list Result)
  : list Result :=
  flat_map (fun '(c1, T1) =>
              map (fun '(c2, T2) =>
                     (mkConstituent None [c1; c2] (words c1 ++ words c2), T2))
                  (r2 T1)) l1.

Definition leaf (w : string) : Constituent := mkConstituent None [] [w].

(** The parse of "the quick brown fox jumped". *)
Definition the_quick_brown_fox_jumped : Constituent :=
  mkConstituent (Some "S")
    [mkConstituent (Some "NP")
       [mkConstituent (Some "Compl") [] ["the"];
        mkConstituent (Some "NP")
          [mkConstituent (Some "Adj") [] ["quick"];
           mkConstituent (Some "NP")
             [mkConstituent (Some "Adj") [] ["brown"];
              mkConstituent (Some "NP") [] ["fox"]]
             ["brown"; "fox"]]
          ["quick"; "brown"; "fox"]]
       ["the"; "quick"; "brown"; "fox"];
     mkConstituent (Some "VP") [] ["jumped"]]
    ["the"; "quick"; "brown"; "fox"; "jumped"].

(** The repetition as the specification tells it, to be compared with
    [star_loop]: from the tokens [T], take the first result of the
    underlying parser, append its constituent and go on from its remainder;
    stop when the tokens are exhausted or when the parser has no result. *)
Inductive star_run (p : Parser) : Tokens -> list Constituent -> Tokens -> Prop :=
| star_run_exhausted : star_run p [] [] []
| star_run_no_result T :
    T <> [] -> first_result p T None -> star_run p T [] T
| star_run_step T c T1 cs rest :
    T <> [] -> first_result p T (Some (c, T1)) ->
    star_run p T1 cs rest -> star_run p T (c :: cs) rest.

(** The underlying parser makes progress below [T]: on every non-empty
    token sequence that is not longer than [T], a consumer of [p] obtains
    either the end of the results or a first result whose remainder is
    shorter than the input. *)
Definition progresses (p : Parser) (T : Tokens) : Prop :=
  forall T', T' <> [] -> List.length T' <= List.length T ->
    first_result p T' None
    \/ exists c T1, first_result p T' (Some (c, T1))
                    /\ List.length T1 < List.length T'.

(** The parsers of one word: the lexical categories. *)
Fixpoint one_word (p : Parser) : bool :=
  match p with
  | WordParser _ => true
  | AltParser p1 p2 => one_word p1 && one_word p2
  | TagParser _ p0 => one_word p0
  | _ => false
  end.

(** Parsers without filter: nothing in them can raise. *)
Fixpoint filter_free (p : Parser) : bool :=
  match p with
  | WordParser _ | Self _ => true
  | SeqParser p1 p2 | AltParser p1 p2 => filter_free p1 && filter_free p2
  | TagParser _ p0 | RecursiveParser p0 | WholeParser p0 | StarParser p0 =>
      filter_free p0
  | FilterParser _ _ => false
  end.

(** The first child of [c] is tagged as an article. *)
Definition determiner_first (c : Constituent) : Prop :=
  exists c0 cs, children c = c0 :: cs /\ tag c0 = Some "Compl".

(** The rule of the article as the specification words it: a vowel letter
    is one of a, e, i, o, u (in either case) and a consonant letter is any
    other letter of the alphabet. *)
Definition is_letter (ch : ascii) : bool :=
  let n := nat_of_ascii ch in
  (Nat.leb 65 n && Nat.leb n 90) || (Nat.leb 97 n && Nat.leb n 122).

Definition vowel_letter (ch : ascii) : bool :=
  existsb (Ascii.eqb ch)
          ["a"; "e"; "i"; "o"; "u"; "A"; "E"; "I"; "O"; "U"]%char.

Definition consonant_letter (ch : ascii) : bool :=
  is_letter ch && negb (vowel_letter ch).

Definition starts_with (class : ascii -> bool) (s : string) : bool :=
  match s with
  | EmptyString => false
  | String ch _ => class ch
  end.

Definition determiner_firstb (c : Constituent) : bool :=
  match children c with
  | [] => false
  | c0 :: _ => tag_eqb (tag c0) (Some "Compl")
  end.

(** "True unless the first child is tagged as the determiner and either the
    first word is a and the second word starts with a vowel letter, or the
    first word is an and the second word starts with a consonant
    letter". *)
Definition stated_article_rule (c : Constituent) : bool :=
  negb (determiner_firstb c
        && match words c with
           | w0 :: w1 :: _ =>
               (String.eqb w0 "a" && starts_with vowel_letter w1)
               || (String.eqb w0 "an" && starts_with consonant_letter w1)
           | _ => false
           end).

(** The article "an" before the token "7up". *)
Definition an_7up : Constituent :=
  (mkConstituent (Some "Compl") [] ["an"] + leaf "7up")%cons.

(** The second word starts with one of the letters a, e, i, o, u. *)
Definition starts_with_aeiou (w : string) : Prop :=
  exists ch rest, w = String ch rest /\ In ch aeiou.

(** Induction on a constituent, with the property at hand for all its
    children. *)
Section ConstituentInduction.
Variable P : Constituent -> Prop.
Hypothesis step : forall t ch ws, Forall P ch -> P (mkConstituent t ch ws).

Fixpoint Constituent_forall_ind (c : Constituent) : P c :=
  match c with
  | mkConstituent t ch ws =>
      step t ch ws
           ((fix go (l : list Constituent) : Forall P l :=
               match l with
               | [] => Forall_nil P
               | x :: l' => Forall_cons x (Constituent_forall_ind x) (go l')
               end) ch)
  end.
End ConstituentInduction.

(* ================================================================== *)
(** * Notions used by the further properties *)

(** The three shapes of a loop body that yields at most once: it yields a
    value, it yields nothing, or it raises. *)
Definition emit {A : Type} (o : option (option A)) : Gen A :=
  match o with
  | Some (Some a) => Yield a Stop
  | Some None => Stop
  | None => Raise
  end.

Definition kept {A : Type} (o : option (option A)) : list A :=
  match o with
  | Some (Some a) => [a]
  | _ => []
  end.

(** The result [(c @ t, T1)] of [TagParser] for the result [(c, T1)]. *)
Definition relabel (t : string) (r : Result) : Result :=
  ((fst r @@ t)%cons, snd r).

(** The results of [SeqParser] for the results [l1] of [p1] and, for each of
    them in order, the results of [p2] on its remainder, listed in [ls]. *)
Definition seq_results (l1 : list Result) (ls : list (list Result))
  : list Result :=
  List.concat (map (fun '(r1, l2) =>
                 map (fun r2 : Result => ((fst r1 + fst r2)%cons, snd r2)) l2)
              (combine l1 ls)).

(** The remainder of a result is empty: the test of [WholeParser]. *)
Definition consumed_all (r : Result) : bool :=
  match snd r with
  | [] => true
  | _ :: _ => false
  end.

(** The test of [FilterParser] on a result: the truth value of what the
    predicate returns. *)
Definition accepted (predicate : Constituent -> option bool) (r : Result)
  : bool :=
  match predicate (fst r) with
  | Some true => true
  | _ => false
  end.

(** The argument of [fp] stands leftmost in the body that [fp] builds: it
    is the first parser that a call of the body calls. *)
Fixpoint leftmost_self (body : Parser) : bool :=
  match body with
  | Self k => Nat.eqb k 0
  | SeqParser b _ | AltParser b _ | TagParser _ b | FilterParser _ b
  | WholeParser b => leftmost_self b
  | _ => false
  end.

(** Parsers without recursion and without repetition, whose filters have
    predicates that do not raise. *)
Fixpoint loop_free (p : Parser) : Prop :=
  match p with
  | WordParser _ => True
  | SeqParser p1 p2 | AltParser p1 p2 => loop_free p1 /\ loop_free p2
  | TagParser _ p0 | WholeParser p0 => loop_free p0
  | FilterParser predicate p0 =>
      (forall c, predicate c <> None) /\ loop_free p0
  | RecursiveParser _ | Self _ | StarParser _ => False
  end.

(** The number of nodes of a tree. *)
Fixpoint size (c : Constituent) : nat :=
  match c with
  | mkConstituent _ ch _ =>
      Datatypes.S ((fix sum (l : list Constituent) : nat :=
                      match l with
                      | [] => 0
                      | x :: l' => size x + sum l'
                      end) ch)
  end.

(** The words of a lexical category. *)
Fixpoint lexicon (p : Parser) : list string :=
  match p with
  | WordParser w => [w]
  | AltParser p1 p2 => lexicon p1 ++ lexicon p2
  | TagParser _ p0 => lexicon p0
  | _ => []
  end.

(** The word lists of the grammar. *)
Definition nouns : list string := ["fox"; "wolf"; "ant"; "table"].
Definition adjectives : list string :=
  ["quick"; "brown"; "table"; "caught"; "adorable"].
Definition articles : list string := ["a"; "an"; "the"].

(** The tree that [NP0] builds for the adjectives [adjs] and the noun [n]:
    each adjective heads a noun phrase that holds the rest; the noun alone
    is a noun phrase without children. *)
Fixpoint np0_tree (adjs : list string) (n : string) : Constituent :=
  match adjs with
  | [] => mkConstituent (Some "NP") [] [n]
  | a :: adjs' =>
      mkConstituent (Some "NP")
                    [mkConstituent (Some "Adj") [] [a]; np0_tree adjs' n]
                    (a :: words (np0_tree adjs' n))
  end.

(** [Constituent.__str__]: the tag (nothing for [None]), then in brackets
    the children when there are some, the words otherwise, joined by
    commas. *)
Fixpoint Constituent_str (c : Constituent) : string :=
  match c with
  | mkConstituent t ch ws =>
      let arguments :=
        match ch with
        | [] => String.concat "," ws
        | _ :: _ =>
            String.concat ","
              ((fix strs (l : list Constituent) : list string :=
                  match l with
                  | [] => []
                  | child :: l' => Constituent_str child :: strs l'
                  end) ch)
        end in
      (match t with Some s => s | None => "" end) ++ "(" ++ arguments ++ ")"
  end.

(** How a noun phrase of adjectives and a noun is written. *)
Fixpoint np0_str (adjs : list string) (n : string) : string :=
  match adjs with
  | [] => "NP(" ++ n ++ ")"
  | a :: adjs' => "NP(Adj(" ++ a ++ ")," ++ np0_str adjs' n ++ ")"
  end.

Definition verbs : list string := ["jump"; "jumped"; "caught"].

(** The article [d] agrees with the word [w1] that follows it, as the
    predicate of [FilterValidArticle] tests it. *)
Definition agrees (d w1 : string) : Prop :=
  (d = "a" -> ~ starts_with_aeiou w1) /\ (d = "an" -> starts_with_aeiou w1).

(** The trees that [NP] and [S] build. *)
Definition np_tree (d : string) (adjs : list string) (n : string)
  : Constituent :=
  mkConstituent (Some "NP")
                [mkConstituent (Some "Compl") [] [d]; np0_tree adjs n]
                (d :: words (np0_tree adjs n)).

Definition s_tree (d : string) (adjs : list string) (n v : string)
  : Constituent :=
  mkConstituent (Some "S")
                [np_tree d adjs n; mkConstituent (Some "VP") [] [v]]
                (words (np_tree d adjs n) ++ [v]).

(** The remainders of the results get strictly shorter along the list, and
    all are shorter than [bound]. *)
Fixpoint decreasing (bound : nat) (l : list Result) : Prop :=
  match l with
  | [] => True
  | r :: l' =>
      List.length (snd r) < bound /\ decreasing (List.length (snd r)) l'
  end.

(** The nesting depth of the calls that a call of a parser without
    recursion or repetition makes, itself included. *)
Fixpoint height (p : Parser) : nat :=
  match p with
  | WordParser _ | Self _ => 1
  | SeqParser p1 p2 | AltParser p1 p2 =>
      Datatypes.S (Nat.max (height p1) (height p2))
  | TagParser _ p0 | FilterParser _ p0 | RecursiveParser p0 | WholeParser p0
  | StarParser p0 => Datatypes.S (height p0)
  end.

(* ================================================================== *)
(** * Generators: approximation and contents *)

Section GeneratorFacts.
Variables A B : Type.
Implicit Types (g h k : Gen A) (l : list A).

Lemma approx_refl g : approx g g.
Proof. induction g; simpl; auto. Qed.

Lemma approx_trans g h k : approx g h -> approx h k -> approx g k.
Proof.
  revert h k; induction g as [|a g IH| |]; simpl; intros h k Hgh Hhk; auto.
  - subst h; exact Hhk.
  - destruct h as [|b h| |]; try contradiction.
    destruct Hgh as [-> Hgh]; simpl in Hhk.
    destruct k as [|c k| |]; try contradiction.
    destruct Hhk as [-> Hhk]; split; eauto.
  - subst h; exact Hhk.
Qed.

(** A generator that ran to its end has no other completion. *)
Lemma approx_of_list l h : approx (of_list l) h -> h = of_list l.
Proof.
  revert h; induction l as [|a l IH]; simpl; intros h Hh; auto.
  destruct h as [|b h| |]; try contradiction.
  destruct Hh as [-> Hh]; f_equal; auto.
Qed.

Lemma approx_Yield a g h :
  approx (Yield a g) h -> exists h', h = Yield a h' /\ approx g h'.
Proof.
  simpl; destruct h as [|b h| |]; try contradiction.
  intros [-> Hh]; eauto.
Qed.

Lemma approx_yield_from g g' k k' :
  approx g g' -> approx k k' -> approx (yield_from g k) (yield_from g' k').
Proof.
  revert g'; induction g as [|a g IH| |]; simpl; intros g' Hg Hk; auto.
  - subst g'; exact Hk.
  - destruct g' as [|b g'| |]; try contradiction.
    destruct Hg as [-> Hg]; simpl; auto.
  - subst g'; reflexivity.
Qed.

Lemma approx_for_each (g g' : Gen B) (f f' : B -> Gen A) :
  approx g g' -> (forall b, approx (f b) (f' b)) ->
  approx (for_each g f) (for_each g' f').
Proof.
  revert g'; induction g as [|b g IH| |]; simpl; intros g' Hg Hf; auto.
  - subst g'; reflexivity.
  - destruct g' as [|b' g'| |]; try contradiction.
    destruct Hg as [-> Hg]; simpl.
    apply approx_yield_from; auto.
  - subst g'; reflexivity.
Qed.

Lemma yield_from_of_list l1 l2 :
  yield_from (of_list l1) (of_list l2) = of_list (l1 ++ l2).
Proof. induction l1; simpl; congruence. Qed.

Lemma for_each_of_list (lb : list B) (f : B -> Gen A) (r : B -> list A) :
  (forall b, In b lb -> f b = of_list (r b)) ->
  for_each (of_list lb) f = of_list (flat_map r lb).
Proof.
  induction lb as [|b lb IH]; simpl; intros Hf; auto.
  rewrite Hf by auto. rewrite IH by auto.
  apply yield_from_of_list.
Qed.

Lemma items_of_list l : items (of_list l) = l.
Proof. induction l; simpl; congruence. Qed.

Lemma raises_of_list l : raises (of_list l) = false.
Proof. induction l; simpl; auto. Qed.

Lemma in_items_yield_from a g k :
  In a (items (yield_from g k)) -> In a (items g) \/ In a (items k).
Proof.
  induction g as [|b g IH| |]; simpl; auto.
  intros [->|H]; auto. destruct (IH H); auto.
Qed.

Lemma in_items_for_each a (g : Gen B) (f : B -> Gen A) :
  In a (items (for_each g f)) ->
  exists b, In b (items g) /\ In a (items (f b)).
Proof.
  induction g as [|b g IH| |]; simpl; try contradiction.
  intros H. apply in_items_yield_from in H. destruct H as [H|H].
  - exists b; auto.
  - destruct (IH H) as [b' [Hb Ha]]; exists b'; auto.
Qed.

Lemma raises_yield_from g k :
  raises g = false -> raises k = false -> raises (yield_from g k) = false.
Proof. induction g; simpl; auto. Qed.

Lemma raises_for_each (g : Gen B) (f : B -> Gen A) :
  raises g = false ->
  (forall b, In b (items g) -> raises (f b) = false) ->
  raises (for_each g f) = false.
Proof.
  induction g as [|b g IH| |]; simpl; intros Hg Hf; auto.
  apply raises_yield_from; auto.
Qed.
End GeneratorFacts.

(* ================================================================== *)
(** * More fuel only extends what a parser has produced *)

Lemma star_loop_mono (p p' : Tokens -> Gen Result) :
  (forall T, approx (p T) (p' T)) ->
  forall n m children T, n <= m ->
    approx (star_loop p n children T) (star_loop p' m children T).
Proof.
  intros Hp. induction n as [|n IH]; intros m children T Hnm.
  - destruct T, m; simpl; auto.
  - destruct m as [|m]; [lia|].
    destruct T as [|t T]; simpl; auto.
    specialize (Hp (t :: T)).
    destruct (p (t :: T)) as [|[tree remainder] g| |]; simpl in Hp; auto.
    + rewrite Hp; simpl; auto.
    + destruct (p' (t :: T)) as [|r' g'| |]; try contradiction.
      destruct Hp as [<- _]. apply IH; lia.
    + rewrite Hp; reflexivity.
Qed.

Lemma call_mono n : forall m p T, n <= m -> approx (call n p T) (call m p T).
Proof.
  induction n as [|n IH]; intros m p T Hnm; [exact I|].
  destruct m as [|m]; [lia|].
  assert (Hle : n <= m) by lia.
  destruct p; simpl.
  - apply approx_refl.
  - apply approx_for_each; [auto|]. intros [c1 T1].
    apply approx_for_each; [auto|]. intros [c2 T2]. apply approx_refl.
  - apply approx_yield_from; auto.
  - apply approx_for_each; [auto|]. intros [c T1]. apply approx_refl.
  - apply approx_for_each; [auto|]. intros [c T1]. apply approx_refl.
  - auto.
  - reflexivity.
  - apply approx_for_each; [auto|]. intros [c T1]. apply approx_refl.
  - apply star_loop_mono; auto.
Qed.

Lemma call_of_list_mono n m p T l :
  call n p T = of_list l -> n <= m -> call m p T = of_list l.
Proof.
  intros H Hnm. apply approx_of_list. rewrite <- H. apply call_mono; auto.
Qed.

Lemma call_Yield_mono n m p T r g :
  call n p T = Yield r g -> n <= m -> exists g', call m p T = Yield r g'.
Proof.
  intros H Hnm. pose proof (call_mono n m p T Hnm) as Ha. rewrite H in Ha.
  apply approx_Yield in Ha. destruct Ha as [g' [-> _]]; eauto.
Qed.

Lemma call_Stop_mono n m p T :
  call n p T = Stop -> n <= m -> call m p T = Stop.
Proof. intros H Hnm. exact (call_of_list_mono n m p T [] H Hnm). Qed.

Lemma of_list_inj (A : Type) (l1 l2 : list A) :
  of_list l1 = of_list l2 -> l1 = l2.
Proof. intros H. rewrite <- (items_of_list A l1), H. apply items_of_list. Qed.

Lemma produces_unique p T l1 l2 :
  produces p T l1 -> produces p T l2 -> l1 = l2.
Proof.
  intros [n1 H1] [n2 H2]. apply of_list_inj.
  rewrite <- (call_of_list_mono n1 (Nat.max n1 n2) p T l1 H1) by lia.
  apply (call_of_list_mono n2 _ p T l2 H2); lia.
Qed.

(* ================================================================== *)
(** * Derivations *)

Lemma derives_star_snoc p T cs T1 c rest :
  derives_star p T cs T1 -> derives p T1 c rest ->
  derives_star p T (cs ++ [c]) rest.
Proof.
  induction 1; simpl; intros Hc.
  - econstructor; [eassumption|constructor].
  - econstructor; eauto.
Qed.

(** The loop of [StarParser], started in the state that [derives_star]
    reaches from [T0], ends in a state that [derives_star] reaches too. *)
Lemma star_loop_sound (n : nat) (p : Parser) (T0 : Tokens) :
  (forall T c rest, In (c, rest) (items (call n p T)) -> derives p T c rest) ->
  forall k children T r,
    derives_star p T0 children T ->
    In r (items (star_loop (call n p) k children T)) ->
    exists cs, r = (mkConstituent None cs (flat_map words cs), snd r)
               /\ derives_star p T0 cs (snd r).
Proof.
  intros Hp. induction k as [|k IH]; intros children T r Hch Hin.
  - destruct T; simpl in Hin; [|contradiction].
    destruct Hin as [<-|[]]; eauto.
  - destruct T as [|t T]; simpl in Hin.
    + destruct Hin as [<-|[]]; eauto.
    + destruct (call n p (t :: T)) as [|[tree remainder] g| |] eqn:E;
        simpl in Hin; try contradiction.
      * destruct Hin as [<-|[]]; eauto.
      * apply (IH (children ++ [tree]) remainder r); auto.
        apply derives_star_snoc with (t :: T); auto.
        apply Hp. rewrite E; simpl; auto.
Qed.

(** Every result of a call has a derivation. *)
Lemma call_sound n : forall p T c rest,
  In (c, rest) (items (call n p T)) -> derives p T c rest.
Proof.
  induction n as [|n IH]; intros p T c rest Hin; [contradiction|].
  destruct p; simpl in Hin.
  - destruct T as [|t T]; [contradiction|].
    destruct (String.eqb t w) eqn:E; [|contradiction].
    apply String.eqb_eq in E; subst t.
    destruct Hin as [Hin|[]]. inversion Hin; subst. constructor.
  - apply in_items_for_each in Hin. destruct Hin as [[c1 T1] [H1 Hin]].
    apply in_items_for_each in Hin. destruct Hin as [[c2 T2] [H2 Hin]].
    destruct Hin as [Hin|[]]. inversion Hin; subst.
    econstructor; eauto.
  - apply in_items_yield_from in Hin. destruct Hin as [Hin|Hin].
    + apply derives_alt_l; auto.
    + apply derives_alt_r; auto.
  - apply in_items_for_each in Hin. destruct Hin as [[c1 T1] [H1 Hin]].
    destruct Hin as [Hin|[]]. inversion Hin; subst.
    constructor; auto.
  - apply in_items_for_each in Hin. destruct Hin as [[c1 T1] [H1 Hin]].
    destruct (predicate c1) as [[|]|] eqn:E; try contradiction.
    destruct Hin as [Hin|[]]. inversion Hin; subst.
    constructor; auto.
  - constructor; auto.
  - contradiction.
  - apply in_items_for_each in Hin. destruct Hin as [[c1 T1] [H1 Hin]].
    destruct T1; [|contradiction].
    destruct Hin as [Hin|[]]. inversion Hin; subst.
    constructor; auto.
  - destruct (star_loop_sound n p T (IH p) n [] T (c, rest))
      as [cs [Hr Hcs]]; auto.
    + constructor.
    + simpl in Hr, Hcs. inversion Hr; subst. constructor; auto.
Qed.

(* ================================================================== *)
(** * The invariants of the trees and of the consumed prefix *)

Lemma tree_inv_unfold c :
  tree_inv c <->
  (children c <> [] -> words c = flat_map words (children c))
  /\ Forall tree_inv (children c).
Proof.
  destruct c as [t ch ws]; simpl.
  assert (H : (fix all (l : list Constituent) : Prop :=
                 match l with
                 | [] => True
                 | x :: l' => tree_inv x /\ all l'
                 end) ch <-> Forall tree_inv ch).
  { induction ch as [|x ch IH]; simpl.
    - split; auto.
    - rewrite IH. split.
      + intros [? ?]; constructor; auto.
      + intros H; inversion H; auto. }
  rewrite H. reflexivity.
Qed.

Lemma derives_tree_inv :
  (forall p T c rest, derives p T c rest -> tree_inv c)
  /\ (forall p T cs rest, derives_star p T cs rest -> Forall tree_inv cs).
Proof.
  apply derives_mutind; intros; auto.
  - simpl; split; [congruence|exact I].
  - apply tree_inv_unfold; simpl; split.
    + intros _. rewrite app_nil_r; reflexivity.
    + auto.
  - apply tree_inv_unfold. apply tree_inv_unfold in H0.
    destruct c; simpl in *; auto.
  - apply tree_inv_unfold; simpl; auto.
Qed.

Lemma derives_prefix :
  (forall p T c rest, derives p T c rest -> words c ++ rest = T)
  /\ (forall p T cs rest, derives_star p T cs rest ->
        flat_map words cs ++ rest = T).
Proof.
  apply derives_mutind; intros; simpl; auto.
  - rewrite <- app_assoc. congruence.
  - rewrite <- app_assoc. congruence.
Qed.

(* ================================================================== *)
(** * The combinators *)

Lemma flat_map_singleton (A B : Type) (f : A -> B) (l : list A) :
  flat_map (fun a => [f a]) l = map f l.
Proof. induction l; simpl; congruence. Qed.

(** Finitely many calls that all run to their end do so with one common
    amount of fuel. *)
Lemma produces_common_fuel (p : Parser) (r : Tokens -> list Result)
      (l : list Result) :
  (forall c T, In (c, T) l -> produces p T (r T)) ->
  exists fuel, forall c T, In (c, T) l -> call fuel p T = of_list (r T).
Proof.
  induction l as [|[c0 T0] l IH]; intros H.
  - exists 0; intros c T [].
  - destruct IH as [n Hn]; [intros; eapply H; right; eauto|].
    destruct (H c0 T0) as [n0 Hn0]; [left; auto|].
    exists (Nat.max n n0). intros c T [Heq|Hin].
    + inversion Heq; subst. apply (call_of_list_mono n0 _ p T _ Hn0); lia.
    + apply (call_of_list_mono n _ p T _ (Hn c T Hin)); lia.
Qed.

Lemma length_cross_product l1 r2 :
  List.length (cross_product l1 r2)
  = list_sum (map (fun r1 => List.length (r2 (snd r1))) l1).
Proof.
  induction l1 as [|[c1 T1] l1 IH]; simpl; auto.
  rewrite List.length_app, List.length_map, <- IH. reflexivity.
Qed.

Lemma cross_product_shape l1 r2 :
  Forall (fun r : Result =>
            tag (fst r) = None
            /\ exists c1 T1 c2,
                 In (c1, T1) l1 /\ In (c2, snd r) (r2 T1)
                 /\ children (fst r) = [c1; c2]
                 /\ words (fst r) = words c1 ++ words c2)
         (cross_product l1 r2).
Proof.
  apply Forall_forall. intros [c T2] Hin. unfold cross_product in Hin.
  apply in_flat_map in Hin. destruct Hin as [[c1 T1] [H1 Hin]].
  apply in_map_iff in Hin. destruct Hin as [[c2 T2'] [E H2]].
  inversion E; subst. simpl. split; [reflexivity|].
  exists c1, T1, c2. auto.
Qed.

(** C1. When [p1(T)] runs to its end with the results [l1] and [p2] runs to
    its end on the remainder of each of them, [SeqParser(p1, p2)(T)] runs
    to its end and its results are exactly the pairs [(c, T2)], for the
    results [(c1, T1)] of [p1] in order and, for each of them, the results
    [(c2, T2)] of [p2(T1)] in order, where [c] is the concatenation of [c1]
    and [c2]: no tag, the children [c1] and [c2], the words of [c1]
    followed by the words of [c2].  Their number is the sum, over the
    results of [p1], of the number of results of [p2] on the remainder. *)
Theorem SeqParser_cross_product
        (p1 p2 : Parser) (T : Tokens) (l1 : list Result)
        (r2 : Tokens -> list Result) :
  produces p1 T l1 ->
  (forall c1 T1, In (c1, T1) l1 -> produces p2 T1 (r2 T1)) ->
  produces (SeqParser p1 p2) T (cross_product l1 r2)
  /\ (forall l, produces (SeqParser p1 p2) T l -> l = cross_product l1 r2)
  /\ Forall (fun r : Result =>
               tag (fst r) = None
               /\ exists c1 T1 c2,
                    In (c1, T1) l1 /\ In (c2, snd r) (r2 T1)
                    /\ children (fst r) = [c1; c2]
                    /\ words (fst r) = words c1 ++ words c2)
            (cross_product l1 r2)
  /\ List.length (cross_product l1 r2)
     = list_sum (map (fun r1 => List.length (r2 (snd r1))) l1).
Proof.
  intros [n1 H1] H2.
  destruct (produces_common_fuel p2 r2 l1 H2) as [n2 Hn2].
  assert (Hseq : produces (SeqParser p1 p2) T (cross_product l1 r2)).
  { exists (Datatypes.S (Nat.max n1 n2)). simpl.
    rewrite (call_of_list_mono n1 (Nat.max n1 n2) p1 T l1 H1) by lia.
    apply for_each_of_list. intros [c1 T1] Hin.
    rewrite (call_of_list_mono n2 (Nat.max n1 n2) p2 T1 _ (Hn2 c1 T1 Hin))
      by lia.
    rewrite <- flat_map_singleton.
    apply for_each_of_list. intros [c2 T2] _. reflexivity. }
  split; [exact Hseq|split; [|split]].
  - intros l Hl. exact (produces_unique _ _ _ _ Hl Hseq).
  - apply cross_product_shape.
  - apply length_cross_product.
Qed.

(** Two results of [p1] and, on the remainder of each, two results of [p2]:
    the four concatenations, those of the first result of [p1] first. *)
Lemma SeqParser_cross_product_witness :
  produces (SeqParser (word "a" || (word "a" @@ "X"))
                      (word "b" || (word "b" @@ "Y")))
           ["a"; "b"]
           [(mkConstituent None
               [mkConstituent None [] ["a"]; mkConstituent None [] ["b"]]
               ["a"; "b"], []);
            (mkConstituent None
               [mkConstituent None [] ["a"];
                mkConstituent (Some "Y") [] ["b"]]
               ["a"; "b"], []);
            (mkConstituent None
               [mkConstituent (Some "X") [] ["a"];
                mkConstituent None [] ["b"]]
               ["a"; "b"], []);
            (mkConstituent None
               [mkConstituent (Some "X") [] ["a"];
                mkConstituent (Some "Y") [] ["b"]]
               ["a"; "b"], [])].
Proof.
  apply (SeqParser_cross_product
           (word "a" || (word "a" @@ "X")) (word "b" || (word "b" @@ "Y"))
           ["a"; "b"]
           [(mkConstituent None [] ["a"], ["b"]);
            (mkConstituent (Some "X") [] ["a"], ["b"])]
           (fun T1 => match T1 with
                      | ["b"] => [(mkConstituent None [] ["b"], []);
                                  (mkConstituent (Some "Y") [] ["b"], [])]
                      | _ => []
                      end)).
  - exists 3; reflexivity.
  - intros c1 T1 [H|[H|[]]]; inversion H; exists 3; reflexivity.
Defined.

(** C9. When [p(T)] runs to its end with the results [l],
    [TagParser(t, p)(T)] runs to its end with one result for each result
    [(c, T1)] of [p], in the same order: the pair [(c @ t, T1)], whose
    constituent has the tag [t] and the children and words of [c], and
    whose remainder is [T1]. *)
Theorem TagParser_relabels (t : string) (p : Parser) (T : Tokens)
        (l : list Result) :
  produces p T l ->
  exists l',
    produces (TagParser t p) T l'
    /\ l' = map (fun r => ((fst r @@ t)%cons, snd r)) l
    /\ List.length l' = List.length l
    /\ Forall2 (fun r r' =>
                  tag (fst r') = Some t
                  /\ children (fst r') = children (fst r)
                  /\ words (fst r') = words (fst r)
                  /\ snd r' = snd r) l l'.
Proof.
  intros [n H]. eexists; split; [|split; [reflexivity|split]].
  - exists (Datatypes.S n). simpl. rewrite H.
    rewrite <- flat_map_singleton.
    apply for_each_of_list. intros [c T1] _. reflexivity.
  - apply List.length_map.
  - clear H. induction l as [|[c T1] l IH]; simpl; constructor; auto.
Qed.

Lemma TagParser_relabels_witness :
  exists l',
    produces (TagParser "X" (word "a" || word "a")) ["a"; "b"] l'
    /\ l' = [(mkConstituent (Some "X") [] ["a"], ["b"]);
             (mkConstituent (Some "X") [] ["a"], ["b"])]
    /\ List.length l' = 2
    /\ Forall2 (fun r r' =>
                  tag (fst r') = Some "X"
                  /\ children (fst r') = children (fst r)
                  /\ words (fst r') = words (fst r)
                  /\ snd r' = snd r)
               [(leaf "a", ["b"]); (leaf "a", ["b"])] l'.
Proof.
  apply (TagParser_relabels "X" (word "a" || word "a") ["a"; "b"]
                            [(leaf "a", ["b"]); (leaf "a", ["b"])]).
  exists 3; reflexivity.
Defined.

(** C2. The four scenarios of [test_star_parser]. *)
Theorem star_scenarios :
  produces (star (word "a")) ["a"; "b"]
           [(mkConstituent None [leaf "a"] ["a"], ["b"])]
  /\ produces (star (word "a" || word "b")) ["a"; "b"; "c"]
              [(mkConstituent None [leaf "a"; leaf "b"] ["a"; "b"], ["c"])]
  /\ produces (star (word "a" || word "b")) ["a"; "b"; "b"]
              [(mkConstituent None [leaf "a"; leaf "b"; leaf "b"]
                              ["a"; "b"; "b"], [])]
  /\ produces (star (word "a" || word "b")) ["c"]
              [(mkConstituent None [] [], ["c"])].
Proof.
  repeat split; exists 5; reflexivity.
Qed.

(** C5. [whole(S)] on the tokens of "the quick brown fox jumped" runs to
    its end, and one of its results is a constituent tagged [S] whose words
    are the five tokens. *)
Theorem sentence_parses :
  let T := ["the"; "quick"; "brown"; "fox"; "jumped"] in
  exists l, produces (whole Grammar.S) T l
            /\ exists c rest, In (c, rest) l
                              /\ rest = []
                              /\ tag c = Some "S"
                              /\ words c = T.
Proof.
  exists [(the_quick_brown_fox_jumped, [])]. split.
  - exists 30. vm_compute. reflexivity.
  - exists the_quick_brown_fox_jumped, []. simpl. auto.
Qed.

(* ================================================================== *)
(** * Invariants of every result *)

(** C6. Whatever the parser, the tokens and the fuel, every constituent
    that a call has yielded satisfies the invariant of the tree, at its
    root and at every node below: a node with children has as words the
    concatenation of the words of its children.  A result of [WordParser]
    is the leaf of the one matched word. *)
Theorem produced_constituents_well_formed
        (fuel : nat) (p : Parser) (T : Tokens) :
  Forall (fun r : Result =>
            tree_inv (fst r)
            /\ (children (fst r) <> [] ->
                words (fst r) = flat_map words (children (fst r))))
         (items (call fuel p T))
  /\ (forall w, Forall (fun r : Result => fst r = mkConstituent None [] [w])
                       (items (call fuel (WordParser w) T))).
Proof.
  split.
  - apply Forall_forall. intros [c rest] Hin.
    apply call_sound in Hin. apply (proj1 derives_tree_inv) in Hin.
    split; [exact Hin|]. apply tree_inv_unfold in Hin. apply Hin.
  - intros w. apply Forall_forall. intros [c rest] Hin.
    apply call_sound in Hin. inversion Hin; subst. reflexivity.
Qed.

(** C7. Whatever the parser, the tokens and the fuel, every result
    [(c, rest)] that a call on [T] has yielded splits [T]: the words of [c]
    followed by [rest] are [T], so that [rest] is a suffix of [T]. *)
Theorem results_consume_prefix (fuel : nat) (p : Parser) (T : Tokens) :
  Forall (fun r : Result =>
            words (fst r) ++ snd r = T
            /\ exists consumed, T = consumed ++ snd r)
         (items (call fuel p T)).
Proof.
  apply Forall_forall. intros [c rest] Hin.
  apply call_sound in Hin. apply (proj1 derives_prefix) in Hin.
  simpl. split; [exact Hin|]. exists (words c). symmetry; exact Hin.
Qed.

(* ================================================================== *)
(** * Repetition *)

Lemma star_run_stops p T cs rest :
  star_run p T cs rest -> rest = [] \/ first_result p rest None.
Proof. induction 1; auto. Qed.

Lemma star_run_loop p T cs rest :
  star_run p T cs rest ->
  exists n0, forall n k children, n0 <= n -> n0 <= k ->
    star_loop (call n p) k children T
    = Yield (mkConstituent None (children ++ cs)
                           (flat_map words (children ++ cs)), rest) Stop.
Proof.
  induction 1 as [|T Hne [f Hf]|T c T1 cs rest Hne [f [g Hf]] _ [n1 IH]].
  - exists 0. intros n k children _ _. rewrite app_nil_r.
    destruct k; reflexivity.
  - exists (Datatypes.S f). intros n k children Hn Hk.
    destruct k as [|k]; [lia|]. destruct T as [|t T]; [congruence|].
    simpl. rewrite (call_Stop_mono f n p (t :: T) Hf) by lia.
    rewrite app_nil_r. reflexivity.
  - exists (Datatypes.S (Nat.max f n1)). intros n k children Hn Hk.
    destruct k as [|k]; [lia|]. destruct T as [|t T]; [congruence|].
    simpl.
    destruct (call_Yield_mono f n p (t :: T) (c, T1) g Hf) as [g' ->]; [lia|].
    rewrite IH by lia. rewrite <- app_assoc. reflexivity.
Qed.

Lemma star_run_produces p T cs rest :
  star_run p T cs rest ->
  produces (star p) T [(mkConstituent None cs (flat_map words cs), rest)].
Proof.
  intros H. destruct (star_run_loop p T cs rest H) as [n0 Hn0].
  exists (Datatypes.S n0). simpl. apply (Hn0 n0 n0 []); lia.
Qed.

Lemma star_run_exists p : forall T, progresses p T ->
  exists cs rest, star_run p T cs rest.
Proof.
  intros T. remember (List.length T) as n eqn:En.
  revert T En. induction n as [n IH] using lt_wf_ind. intros T En Hp.
  destruct T as [|t T].
  - exists [], []. constructor.
  - destruct (Hp (t :: T)) as [Hnone|[c [T1 [Hsome Hlt]]]]; try congruence; auto.
    + exists [], (t :: T). constructor; congruence.
    + destruct (IH (List.length T1)) with (T := T1) as [cs [rest Hrun]];
        try lia; auto.
      * intros T' Hne Hle. apply Hp; auto. lia.
      * exists (c :: cs), rest. econstructor; eauto. congruence.
Qed.

(** C3, as the code has it. When the underlying parser makes progress,
    [star(p)(T)] runs to its end with exactly one result: the constituent
    whose children are the first results of [p] taken one after the other
    and whose words are the words of these children, with the tokens that
    are left; the loop has stopped on an empty token sequence or where [p]
    has no result. *)
Theorem star_terminates_on_progress (p : Parser) (T : Tokens) :
  progresses p T ->
  exists cs rest,
    star_run p T cs rest
    /\ (rest = [] \/ first_result p rest None)
    /\ produces (star p) T
                [(mkConstituent None cs (flat_map words cs), rest)].
Proof.
  intros Hp. destruct (star_run_exists p T Hp) as [cs [rest Hrun]].
  exists cs, rest. split; [exact Hrun|split].
  - exact (star_run_stops p T cs rest Hrun).
  - exact (star_run_produces p T cs rest Hrun).
Qed.

Lemma star_terminates_on_progress_witness :
  exists cs rest,
    star_run (word "a" || word "b") ["a"; "b"; "c"] cs rest
    /\ (rest = [] \/ first_result (word "a" || word "b") rest None)
    /\ produces (star (word "a" || word "b")) ["a"; "b"; "c"]
                [(mkConstituent None cs (flat_map words cs), rest)].
Proof.
  apply (star_terminates_on_progress (word "a" || word "b") ["a"; "b"; "c"]).
  intros T' Hne _. destruct T' as [|t T']; [congruence|].
  destruct (String.eqb t "a") eqn:Ea; [|destruct (String.eqb t "b") eqn:Eb].
  - right. exists (leaf "a"), T'. split; [|simpl; lia].
    exists 3. simpl. rewrite Ea. simpl. eauto.
  - right. exists (leaf "b"), T'. split; [|simpl; lia].
    exists 3. simpl. rewrite Ea, Eb. simpl. eauto.
  - left. exists 3. simpl. rewrite Ea, Eb. reflexivity.
Defined.

(** [star(word('a'))] on the tokens [b] has one result, which consumes
    nothing. *)
Lemma inner_star_consumes_nothing fuel :
  call fuel (star (word "a")) ["b"] = OutOfFuel
  \/ call fuel (star (word "a")) ["b"]
     = Yield (mkConstituent None [] [], ["b"]) Stop.
Proof.
  destruct fuel as [|[|[|fuel]]]; simpl; auto.
Qed.

(** So the loop of a [star] around it never leaves the tokens [b]: each
    turn appends one more empty child. *)
Lemma outer_star_loops n : forall k children,
  star_loop (call n (star (word "a"))) k children ["b"] = OutOfFuel.
Proof.
  intros k. induction k as [|k IH]; intros children; simpl; auto.
  destruct (inner_star_consumes_nothing n) as [-> | ->]; auto.
Qed.

(** C3, as it is stated, fails: [star(star(word('a')))] on the tokens [b]
    yields nothing, whatever the fuel. *)
Lemma star_of_star_diverges :
  ~ exists l, produces (star (star (word "a"))) ["b"] l.
Proof.
  intros [l [fuel H]]. destruct fuel as [|fuel]; simpl in H.
  - destruct l; discriminate.
  - rewrite outer_star_loops in H. destruct l; discriminate.
Qed.

(* ================================================================== *)
(** * Equality of constituents *)

Lemma tag_eqb_eq a b : tag_eqb a b = true <-> a = b.
Proof.
  destruct a as [x|], b as [y|]; simpl; try (split; congruence).
  rewrite String.eqb_eq. split; congruence.
Qed.

Lemma tuple_eqb_eq (A : Type) (eqb : A -> A -> bool) (l1 : list A) :
  Forall (fun x => forall y, eqb x y = true <-> x = y) l1 ->
  forall l2, tuple_eqb eqb l1 l2 = true <-> l1 = l2.
Proof.
  induction 1 as [|x l1 Hx _ IH]; intros [|y l2]; simpl;
    try (split; congruence).
  rewrite andb_true_iff, Hx, IH. split.
  - intros [-> ->]; reflexivity.
  - intros E; inversion E; auto.
Qed.

Lemma words_eqb_eq (ws1 ws2 : list string) :
  tuple_eqb String.eqb ws1 ws2 = true <-> ws1 = ws2.
Proof.
  apply tuple_eqb_eq. apply Forall_forall. intros x _ y. apply String.eqb_eq.
Qed.

(** The comparison of the source decides the equality of the trees. *)
Lemma Constituent_eqb_eq (a : Constituent) :
  forall b, Constituent_eqb a b = true <-> a = b.
Proof.
  induction a as [t ch ws IH] using Constituent_forall_ind.
  intros [t' ch' ws']. simpl.
  rewrite !andb_true_iff, tag_eqb_eq, words_eqb_eq.
  rewrite (tuple_eqb_eq _ Constituent_eqb ch IH).
  split.
  - intros [[-> ->] ->]; reflexivity.
  - intros E; inversion E; auto.
Qed.

Lemma Constituent_eqb_refl a : Constituent_eqb a a = true.
Proof. apply Constituent_eqb_eq; reflexivity. Qed.

Lemma Constituent_eqb_sym a b : Constituent_eqb a b = Constituent_eqb b a.
Proof.
  destruct (Constituent_eqb a b) eqn:E1, (Constituent_eqb b a) eqn:E2; auto.
  - apply Constituent_eqb_eq in E1. subst b.
    rewrite Constituent_eqb_refl in E2; discriminate.
  - apply Constituent_eqb_eq in E2. subst b.
    rewrite Constituent_eqb_refl in E1; discriminate.
Qed.

(** C8. [__eq__] is a total boolean function.  It is reflexive and
    symmetric on constituents; it answers [True] on two constituents built
    from the same tag, children and words, and [True] only when the two
    trees are the same; it answers [False] on a value that is not a
    constituent; and [__ne__] is its negation. *)
Theorem Constituent_eq_structural :
  (forall c, Constituent_eq c (PyConstituent c) = true)
  /\ (forall a b, Constituent_eq a (PyConstituent b)
                  = Constituent_eq b (PyConstituent a))
  /\ (forall t ch ws,
         Constituent_eq (mkConstituent t ch ws)
                        (PyConstituent (mkConstituent t ch ws)) = true)
  /\ (forall a b, Constituent_eq a (PyConstituent b) = true <-> a = b)
  /\ (forall a b, Constituent_eq a (PyConstituent b) = false <->
                  (tag a <> tag b \/ children a <> children b
                   \/ words a <> words b))
  /\ (forall a s n l,
         Constituent_eq a PyNone = false
         /\ Constituent_eq a (PyStr s) = false
         /\ Constituent_eq a (PyInt n) = false
         /\ Constituent_eq a (PyTuple l) = false)
  /\ (forall a v, Constituent_ne a v = negb (Constituent_eq a v)).
Proof.
  split; [|split; [|split; [|split; [|split; [|split]]]]];
    unfold Constituent_ne, Constituent_eq.
  - apply Constituent_eqb_refl.
  - apply Constituent_eqb_sym.
  - intros t ch ws. apply Constituent_eqb_refl.
  - intros a b. apply Constituent_eqb_eq.
  - intros a b. split.
    + intros E. destruct a as [t ch ws], b as [t' ch' ws']; simpl.
      destruct (tag_eqb t t') eqn:Et;
        [apply tag_eqb_eq in Et; subst t'
        |left; intros Ht; apply tag_eqb_eq in Ht; congruence].
      destruct (tuple_eqb String.eqb ws ws') eqn:Ew;
        [apply words_eqb_eq in Ew; subst ws'
        |right; right; intros Hw; apply words_eqb_eq in Hw; congruence].
      right; left. intros ->.
      rewrite Constituent_eqb_refl in E; discriminate.
    + intros H. destruct (Constituent_eqb a b) eqn:E; auto.
      apply Constituent_eqb_eq in E. subst b. intuition congruence.
  - auto.
  - reflexivity.
Qed.

(* ================================================================== *)
(** * The grammar: the agreement of the article *)

(** The equations of [call] for the classes of the grammar. *)
Lemma call_TagParser n t p T :
  call (Datatypes.S n) (TagParser t p) T
  = for_each (call n p T) (fun '(c, T1) => Yield ((c @@ t)%cons, T1) Stop).
Proof. reflexivity. Qed.

Lemma call_SeqParser n p1 p2 T :
  call (Datatypes.S n) (SeqParser p1 p2) T
  = for_each (call n p1 T) (fun '(c1, T1) =>
      for_each (call n p2 T1) (fun '(c2, T2) =>
        Yield ((c1 + c2)%cons, T2) Stop)).
Proof. reflexivity. Qed.

Lemma call_FilterParser n predicate p T :
  call (Datatypes.S n) (FilterParser predicate p) T
  = for_each (call n p T) (fun '(c, T1) =>
      match predicate c with
      | Some true => Yield (c, T1) Stop
      | Some false => Stop
      | None => Raise
      end).
Proof. reflexivity. Qed.

Lemma derives_one_word p : one_word p = true ->
  forall T c rest, derives p T c rest -> List.length (words c) = 1.
Proof.
  induction p; simpl; intros Hp T c rest H; try discriminate;
    inversion H; subst; clear H; auto.
  - apply andb_true_iff in Hp. destruct Hp; eauto.
  - apply andb_true_iff in Hp. destruct Hp; eauto.
  - match goal with
    | Hd : derives p _ ?c0 _ |- _ =>
        apply (IHp Hp) in Hd; destruct c0; exact Hd
    end.
Qed.

Lemma NP0_body :
  apply_fp 0 Grammar.NP0
           ((Grammar.N || (Grammar.Adj + Self 0)) @@ "NP")%parser
  = ((Grammar.N || (Grammar.Adj + Grammar.NP0)) @@ "NP")%parser.
Proof. reflexivity. Qed.

(** A noun phrase without article has a word. *)
Lemma NP0_has_a_word T c rest :
  derives Grammar.NP0 T c rest -> 1 <= List.length (words c).
Proof.
  intros H. unfold Grammar.NP0 at 1, recursive in H.
  inversion H as [| | | | | |fp T' c' T1 Hbody| |]; subst; clear H.
  change (derives ((Grammar.N || (Grammar.Adj + Grammar.NP0)) @@ "NP")%parser
                  T c rest) in Hbody.
  inversion Hbody as [| | | |t p T' c0 T1 Halt| | | |]; subst; clear Hbody.
  destruct c0 as [t0 ch0 ws0]; simpl.
  inversion Halt as [| |p1 p2 T' c' T1 HN|p1 p2 T' c' T1 Hseq| | | | |];
    subst; clear Halt.
  - apply (derives_one_word Grammar.N eq_refl) in HN. simpl in HN. lia.
  - inversion Hseq as [|p1 p2 T' c1 T1 c2 T2 HAdj HNP0| | | | | | |];
      subst; clear Hseq.
    apply (derives_one_word Grammar.Adj eq_refl) in HAdj.
    rewrite List.length_app. lia.
Qed.

(** An article followed by such a noun phrase has two words. *)
Lemma Compl_NP0_two_words T c rest :
  derives (Grammar.Compl + Grammar.NP0)%parser T c rest ->
  2 <= List.length (words c).
Proof.
  intros H.
  inversion H as [|p1 p2 T' c1 T1 c2 T2 HC HNP0| | | | | | |]; subst; clear H.
  apply (derives_one_word Grammar.Compl eq_refl) in HC.
  apply NP0_has_a_word in HNP0.
  simpl. rewrite List.length_app. lia.
Qed.

Lemma predicate_two_words c :
  2 <= List.length (words c) -> FilterValidArticle_predicate c <> None.
Proof.
  unfold FilterValidArticle_predicate. intros H.
  destruct (children c) as [|c0 ch]; [discriminate|].
  destruct (negb (tag_eqb (tag c0) (Some "Compl"))); [discriminate|].
  destruct (words c) as [|w0 [|w1 ws]]; simpl in *; try lia.
  destruct (String.eqb w0 "a"); [discriminate|].
  destruct (String.eqb w0 "an"); discriminate.
Qed.

Lemma apply_fp_filter_free self : filter_free self = true ->
  forall body k, filter_free body = true ->
                 filter_free (apply_fp k self body) = true.
Proof.
  intros Hs. induction body as [w|p1 IH1 p2 IH2|p1 IH1 p2 IH2|t p IH
                               |predicate p IH|fp IH|j|p IH|p IH];
    simpl; intros k Hb; auto;
    try (apply andb_true_iff in Hb; destruct Hb;
         apply andb_true_iff; split; auto).
  destruct (Nat.eqb j k); auto.
Qed.

Lemma star_loop_no_raise (run : Tokens -> Gen Result) :
  (forall T, raises (run T) = false) ->
  forall k children T, raises (star_loop run k children T) = false.
Proof.
  intros Hrun. induction k as [|k IH]; intros children [|t T]; simpl; auto.
  specialize (Hrun (t :: T)).
  destruct (run (t :: T)) as [|[tree remainder] g| |]; simpl in *; auto.
Qed.

Lemma filter_free_no_raise n : forall p T,
  filter_free p = true -> raises (call n p T) = false.
Proof.
  induction n as [|n IH]; intros p T Hp; [reflexivity|].
  destruct p; simpl in *; try discriminate; auto.
  - destruct T as [|t T]; auto. destruct (String.eqb t w); auto.
  - apply andb_true_iff in Hp. destruct Hp.
    apply raises_for_each; auto. intros [c1 T1] _.
    apply raises_for_each; auto. intros [c2 T2] _. reflexivity.
  - apply andb_true_iff in Hp. destruct Hp.
    apply raises_yield_from; auto.
  - apply raises_for_each; auto. intros [c1 T1] _. reflexivity.
  - apply IH. apply apply_fp_filter_free; auto.
  - apply raises_for_each; auto. intros [c1 [|t1 T1]] _; reflexivity.
  - apply star_loop_no_raise; auto.
Qed.

Lemma NP_no_raise n T : raises (call n Grammar.NP T) = false.
Proof.
  destruct n as [|n]; [reflexivity|].
  unfold Grammar.NP, FilterValidArticle. rewrite call_TagParser.
  apply raises_for_each; [|intros [c T1] _; reflexivity].
  destruct n as [|n]; [reflexivity|]. rewrite call_FilterParser.
  apply raises_for_each.
  - apply filter_free_no_raise. reflexivity.
  - intros [c T1] Hin. apply call_sound in Hin.
    apply Compl_NP0_two_words in Hin. apply predicate_two_words in Hin.
    destruct (FilterValidArticle_predicate c) as [[|]|]; auto. congruence.
Qed.

Lemma S_no_raise n T : raises (call n Grammar.S T) = false.
Proof.
  destruct n as [|n]; [reflexivity|].
  unfold Grammar.S. rewrite call_TagParser.
  apply raises_for_each; [|intros [c T1] _; reflexivity].
  destruct n as [|n]; [reflexivity|]. rewrite call_SeqParser.
  apply raises_for_each; [apply NP_no_raise|]. intros [c1 T1] _.
  apply raises_for_each; [|intros [c2 T2] _; reflexivity].
  apply filter_free_no_raise. reflexivity.
Qed.

(** C10. Every constituent that reaches the predicate of [NP], that is
    every result of [Compl + NP0], has two words when its first child is
    tagged [Compl], so that the predicate does not raise on it; and no call
    of [NP] or of [S] raises. *)
Theorem article_predicate_in_bounds (fuel : nat) (T : Tokens) :
  Forall (fun r : Result =>
            determiner_first (fst r) ->
            2 <= List.length (words (fst r))
            /\ FilterValidArticle_predicate (fst r) <> None)
         (items (call fuel (Grammar.Compl + Grammar.NP0)%parser T))
  /\ raises (call fuel Grammar.NP T) = false
  /\ raises (call fuel Grammar.S T) = false.
Proof.
  split; [|split; [apply NP_no_raise|apply S_no_raise]].
  apply Forall_forall. intros [c rest] Hin _. simpl.
  apply call_sound in Hin. apply Compl_NP0_two_words in Hin.
  split; [exact Hin|apply predicate_two_words; exact Hin].
Qed.

(** C4, as it is stated, fails on a second word that starts with no
    letter: [Compl + word('7up')] yields [an_7up] on the tokens "an 7up",
    the stated rule lets it pass, the predicate of the source rejects it
    and the filter yields nothing. *)
Lemma article_rule_not_as_stated :
  call 5 (Grammar.Compl + word "7up")%parser ["an"; "7up"]
  = Yield (an_7up, []) Stop
  /\ stated_article_rule an_7up = true
  /\ FilterValidArticle_predicate an_7up = Some false
  /\ call 6 (FilterValidArticle (Grammar.Compl + word "7up")%parser)
            ["an"; "7up"] = Stop.
Proof. repeat split; vm_compute; reflexivity. Qed.

Lemma re_match_class_aeiou w :
  re_match_class false aeiou w = true <-> starts_with_aeiou w.
Proof.
  unfold starts_with_aeiou, re_match_class. destruct w as [|ch rest].
  - split; [discriminate|]. intros [ch [rest [H _]]]; discriminate.
  - rewrite xorb_false_l. split.
    + intros H. exists ch, rest. split; [reflexivity|].
      apply existsb_exists in H. destruct H as [x [Hx E]].
      apply Ascii.eqb_eq in E. subst x. exact Hx.
    + intros [ch' [rest' [E H]]]. inversion E; subst.
      apply existsb_exists. exists ch'. split; [exact H|apply Ascii.eqb_refl].
Qed.

Lemma re_match_class_not_aeiou w :
  re_match_class true aeiou w = false <-> w = "" \/ starts_with_aeiou w.
Proof.
  rewrite <- re_match_class_aeiou. unfold re_match_class.
  destruct w as [|ch rest].
  - split; auto.
  - destruct (existsb (Ascii.eqb ch) aeiou); simpl; split; auto;
      intros [H|H]; discriminate.
Qed.

Lemma determiner_firstb_spec c :
  determiner_firstb c = true <-> determiner_first c.
Proof.
  unfold determiner_firstb, determiner_first.
  destruct (children c) as [|c0 cs].
  - split; [discriminate|]. intros [c1 [cs1 [H _]]]; discriminate.
  - rewrite tag_eqb_eq. split.
    + intros H; exists c0, cs; auto.
    + intros [c1 [cs1 [E H]]]. inversion E; subst; auto.
Qed.

(** C4, as the code has it. A constituent whose first child is not tagged
    [Compl] passes.  A constituent whose first child is tagged [Compl] and
    that has two words is rejected exactly when its first word is a and
    its second word is empty or starts with one of the letters a, e, i, o,
    u, or its first word is an and its second word does not start with one
    of these letters; otherwise it passes.  The article "the" passes.  On
    the rule [NP], "a fox" and "an ant" are accepted and "an fox" and
    "a ant" are rejected. *)
Theorem article_rule :
  (forall c, ~ determiner_first c ->
             FilterValidArticle_predicate c = Some true)
  /\ (forall c w0 w1 ws,
         determiner_first c -> words c = w0 :: w1 :: ws ->
         (FilterValidArticle_predicate c = Some false <->
          (w0 = "a" /\ (w1 = "" \/ starts_with_aeiou w1))
          \/ (w0 = "an" /\ ~ starts_with_aeiou w1))
         /\ (FilterValidArticle_predicate c <> Some false ->
             FilterValidArticle_predicate c = Some true))
  /\ (forall c ws, words c = "the" :: ws ->
                   FilterValidArticle_predicate c = Some true)
  /\ produces Grammar.NP ["a"; "fox"]
              [(mkConstituent (Some "NP")
                  [mkConstituent (Some "Compl") [] ["a"];
                   mkConstituent (Some "NP") [] ["fox"]] ["a"; "fox"], [])]
  /\ produces Grammar.NP ["an"; "fox"] []
  /\ produces Grammar.NP ["a"; "ant"] []
  /\ produces Grammar.NP ["an"; "ant"]
              [(mkConstituent (Some "NP")
                  [mkConstituent (Some "Compl") [] ["an"];
                   mkConstituent (Some "NP") [] ["ant"]] ["an"; "ant"], [])].
Proof.
  split; [|split; [|split; [|repeat split; exists 20; vm_compute; reflexivity]]].
  - intros c Hc. rewrite <- determiner_firstb_spec in Hc.
    unfold FilterValidArticle_predicate, determiner_firstb in *.
    destruct (children c) as [|c0 cs]; auto.
    destruct (tag_eqb (tag c0) (Some "Compl")); simpl; congruence.
  - intros c w0 w1 ws Hc Hw. apply determiner_firstb_spec in Hc.
    unfold FilterValidArticle_predicate, determiner_firstb in *.
    destruct (children c) as [|c0 cs]; [discriminate|].
    rewrite Hc, Hw. simpl.
    destruct (String.eqb w0 "a") eqn:Ea;
      [|destruct (String.eqb w0 "an") eqn:Ean].
    + apply String.eqb_eq in Ea. subst w0.
      pose proof (re_match_class_not_aeiou w1) as Hre.
      destruct (re_match_class true aeiou w1); split.
      * split; [discriminate|]. intros [[_ H]|[H _]]; [|discriminate].
        apply Hre in H. discriminate.
      * reflexivity.
      * split; [|reflexivity]. intros _. left. split; [reflexivity|].
        apply Hre. reflexivity.
      * congruence.
    + apply String.eqb_eq in Ean. subst w0.
      pose proof (re_match_class_aeiou w1) as Hre.
      destruct (re_match_class false aeiou w1); split.
      * split; [discriminate|]. intros [[H _]|[_ H]]; [discriminate|].
        exfalso. apply H. apply Hre. reflexivity.
      * reflexivity.
      * split; [|reflexivity]. intros _. right. split; [reflexivity|].
        intros H. apply Hre in H. discriminate.
      * congruence.
    + apply String.eqb_neq in Ea, Ean. split; [|reflexivity].
      split; [discriminate|]. intros [[H _]|[H _]]; congruence.
  - intros c ws Hw. unfold FilterValidArticle_predicate. rewrite Hw.
    destruct (children c) as [|c0 cs]; auto.
    destruct (negb (tag_eqb (tag c0) (Some "Compl"))); reflexivity.
Qed.

(* ================================================================== *)
(** * Generators that ran to their end *)

Section GeneratorInversion.
Variables A B : Type.

Lemma of_list_not_OutOfFuel (l : list A) : of_list l <> OutOfFuel.
Proof. destruct l; discriminate. Qed.

Lemma of_list_not_Raise (l : list A) : of_list l <> Raise.
Proof. destruct l; discriminate. Qed.

Lemma yield_from_of_list_inv (g k : Gen A) : forall l,
  yield_from g k = of_list l ->
  exists l1 l2, g = of_list l1 /\ k = of_list l2 /\ l = l1 ++ l2.
Proof.
  induction g as [|a g IH| |]; simpl; intros l H.
  - exists [], l; auto.
  - destruct l as [|a' l]; [discriminate|]. simpl in H.
    inversion H; subst. destruct (IH l H2) as [l1 [l2 [-> [-> ->]]]].
    exists (a' :: l1), l2; auto.
  - symmetry in H. apply of_list_not_Raise in H; contradiction.
  - symmetry in H. apply of_list_not_OutOfFuel in H; contradiction.
Qed.

Lemma for_each_ext (g : Gen B) (f f' : B -> Gen A) :
  (forall b, f b = f' b) -> for_each g f = for_each g f'.
Proof.
  intros H. induction g as [|b g IH| |]; simpl; auto.
  rewrite H, IH. reflexivity.
Qed.

Lemma for_each_of_list_inv (g : Gen B) (f : B -> Gen A) : forall l,
  for_each g f = of_list l ->
  exists lb ls, g = of_list lb
                /\ Forall2 (fun b lsb => f b = of_list lsb) lb ls
                /\ l = List.concat ls.
Proof.
  induction g as [|b g IH| |]; simpl; intros l H.
  - exists [], []. destruct l; [auto|discriminate].
  - apply yield_from_of_list_inv in H. destruct H as [l1 [l2 [H1 [H2 ->]]]].
    destruct (IH l2 H2) as [lb [ls [-> [HF ->]]]].
    exists (b :: lb), (l1 :: ls); simpl; auto.
  - symmetry in H. apply of_list_not_Raise in H; contradiction.
  - symmetry in H. apply of_list_not_OutOfFuel in H; contradiction.
Qed.

Lemma for_each_of_list_concat (lb : list B) (f : B -> Gen A) ls :
  Forall2 (fun b lsb => f b = of_list lsb) lb ls ->
  for_each (of_list lb) f = of_list (List.concat ls).
Proof.
  induction 1 as [|b lsb lb ls Hb _ IH]; simpl; auto.
  rewrite Hb, IH. apply yield_from_of_list.
Qed.

(** A loop whose body yields at most once ran to its end exactly when the
    generator it iterates on did and the body raised on none of its
    values. *)
Lemma for_each_emit (g : Gen B) (k : B -> option (option A)) l :
  for_each g (fun b => emit (k b)) = of_list l <->
  exists lb, g = of_list lb
             /\ Forall (fun b => k b <> None) lb
             /\ l = flat_map (fun b => kept (k b)) lb.
Proof.
  split.
  - revert l. induction g as [|b g IH| |]; simpl; intros l H.
    + exists []. destruct l; [auto|discriminate].
    + destruct (k b) as [[a|]|] eqn:E; simpl in H.
      * destruct l as [|a' l]; [discriminate|]. inversion H; subst.
        destruct (IH l H2) as [lb [-> [HF ->]]].
        exists (b :: lb). simpl. rewrite E. repeat split; auto.
        constructor; auto. congruence.
      * destruct (IH l H) as [lb [-> [HF ->]]].
        exists (b :: lb). simpl. rewrite E. repeat split; auto.
        constructor; auto. congruence.
      * symmetry in H. apply of_list_not_Raise in H; contradiction.
    + symmetry in H. apply of_list_not_Raise in H; contradiction.
    + symmetry in H. apply of_list_not_OutOfFuel in H; contradiction.
  - intros [lb [-> [HF ->]]]. induction HF as [|b lb Hb _ IH]; simpl; auto.
    destruct (k b) as [[a|]|]; simpl; congruence.
Qed.
End GeneratorInversion.

(* ================================================================== *)
(** * What each combinator produces *)

Lemma produces_fuel p T l :
  produces p T l -> exists n, call (Datatypes.S n) p T = of_list l.
Proof.
  intros [[|n] H]; [|eauto].
  symmetry in H. apply of_list_not_OutOfFuel in H. contradiction.
Qed.

Lemma call_TagParser_emit n t p T :
  call (Datatypes.S n) (TagParser t p) T
  = for_each (call n p T) (fun b => emit (Some (Some (relabel t b)))).
Proof. simpl. apply for_each_ext. intros [c T1]. reflexivity. Qed.

Lemma call_FilterParser_emit n predicate p T :
  call (Datatypes.S n) (FilterParser predicate p) T
  = for_each (call n p T)
             (fun b => emit match predicate (fst b) with
                            | Some true => Some (Some b)
                            | Some false => Some None
                            | None => None
                            end).
Proof.
  simpl. apply for_each_ext. intros [c T1]. simpl.
  destruct (predicate c) as [[|]|]; reflexivity.
Qed.

Lemma call_WholeParser_emit n p T :
  call (Datatypes.S n) (WholeParser p) T
  = for_each (call n p T)
             (fun b => emit (if consumed_all b then Some (Some b)
                             else Some None)).
Proof.
  simpl. apply for_each_ext. intros [c [|t T1]]; reflexivity.
Qed.

Lemma produces_AltParser p1 p2 T l :
  produces (AltParser p1 p2) T l <->
  exists l1 l2, produces p1 T l1 /\ produces p2 T l2 /\ l = l1 ++ l2.
Proof.
  split.
  - intros H. apply produces_fuel in H. destruct H as [n H]. simpl in H.
    apply yield_from_of_list_inv in H. destruct H as [l1 [l2 [H1 [H2 ->]]]].
    exists l1, l2. repeat split; [exists n|exists n]; assumption.
  - intros [l1 [l2 [[n1 H1] [[n2 H2] ->]]]].
    exists (Datatypes.S (Nat.max n1 n2)). simpl.
    rewrite (call_of_list_mono n1 (Nat.max n1 n2) p1 T l1 H1) by lia.
    rewrite (call_of_list_mono n2 (Nat.max n1 n2) p2 T l2 H2) by lia.
    apply yield_from_of_list.
Qed.

Lemma produces_TagParser t p T l :
  produces (TagParser t p) T l <->
  exists l0, produces p T l0 /\ l = map (relabel t) l0.
Proof.
  split.
  - intros H. apply produces_fuel in H. destruct H as [n H].
    rewrite call_TagParser_emit in H. apply for_each_emit in H.
    destruct H as [l0 [H0 [_ ->]]]. exists l0. split; [exists n; exact H0|].
    apply flat_map_singleton.
  - intros [l0 [[n H0] ->]]. exists (Datatypes.S n).
    rewrite call_TagParser_emit. apply for_each_emit.
    exists l0. split; [exact H0|split].
    + apply Forall_forall. intros; discriminate.
    + symmetry. apply flat_map_singleton.
Qed.

(** The results that a predicate lets through. *)
Lemma kept_filter (A : Type) (test : A -> bool) (l : list A) :
  flat_map (fun a => kept (if test a then Some (Some a) else Some None)) l
  = filter test l.
Proof.
  induction l as [|a l IH]; simpl; auto.
  destruct (test a); simpl; congruence.
Qed.

Lemma produces_WholeParser p T l :
  produces (WholeParser p) T l <->
  exists l0, produces p T l0 /\ l = filter consumed_all l0.
Proof.
  split.
  - intros H. apply produces_fuel in H. destruct H as [n H].
    rewrite call_WholeParser_emit in H. apply for_each_emit in H.
    destruct H as [l0 [H0 [_ ->]]]. exists l0. split; [exists n; exact H0|].
    apply kept_filter.
  - intros [l0 [[n H0] ->]]. exists (Datatypes.S n).
    rewrite call_WholeParser_emit. apply for_each_emit.
    exists l0. split; [exact H0|split].
    + apply Forall_forall. intros b _. destruct (consumed_all b); discriminate.
    + symmetry. apply kept_filter.
Qed.

Lemma kept_accepted predicate (l : list Result) :
  flat_map (fun b => kept match predicate (fst b) with
                          | Some true => Some (Some b)
                          | Some false => Some None
                          | None => None
                          end) l
  = filter (accepted predicate) l.
Proof.
  unfold accepted. induction l as [|b l IH]; simpl; auto.
  destruct (predicate (fst b)) as [[|]|]; simpl; rewrite IH; reflexivity.
Qed.

Lemma produces_FilterParser predicate p T l :
  produces (FilterParser predicate p) T l <->
  exists l0, produces p T l0
             /\ Forall (fun r => predicate (fst r) <> None) l0
             /\ l = filter (accepted predicate) l0.
Proof.
  split.
  - intros H. apply produces_fuel in H. destruct H as [n H].
    rewrite call_FilterParser_emit in H. apply for_each_emit in H.
    destruct H as [l0 [H0 [HF ->]]]. exists l0.
    split; [exists n; exact H0|split; [|apply kept_accepted]].
    apply Forall_impl with (2 := HF). intros b Hb E. apply Hb.
    rewrite E. reflexivity.
  - intros [l0 [[n H0] [HF ->]]]. exists (Datatypes.S n).
    rewrite call_FilterParser_emit. apply for_each_emit.
    exists l0. split; [exact H0|split; [|symmetry; apply kept_accepted]].
    apply Forall_impl with (2 := HF). intros b Hb.
    destruct (predicate (fst b)) as [[|]|]; congruence.
Qed.

Lemma produces_RecursiveParser fp T l :
  produces (RecursiveParser fp) T l <->
  produces (apply_fp 0 (RecursiveParser fp) fp) T l.
Proof.
  split.
  - intros H. apply produces_fuel in H. destruct H as [n H]. exists n. exact H.
  - intros [n H]. exists (Datatypes.S n). exact H.
Qed.

Lemma seq_results_cons r1 l1 l2 ls :
  seq_results (r1 :: l1) (l2 :: ls)
  = map (fun r2 : Result => ((fst r1 + fst r2)%cons, snd r2)) l2
    ++ seq_results l1 ls.
Proof. reflexivity. Qed.

Lemma seq_results_app (Q : Result -> list Result -> Prop) la lsa lb lsb :
  Forall2 Q la lsa ->
  seq_results (la ++ lb) (lsa ++ lsb)
  = seq_results la lsa ++ seq_results lb lsb.
Proof.
  induction 1 as [|r1 l2 la lsa _ _ IH]; simpl; auto.
  rewrite !seq_results_cons, IH. apply app_assoc.
Qed.

Lemma Forall2_common_fuel p (l1 : list Result) ls :
  Forall2 (fun r1 l2 => produces p (snd r1) l2) l1 ls ->
  exists fuel,
    Forall2 (fun r1 l2 => call fuel p (snd r1) = of_list l2) l1 ls.
Proof.
  induction 1 as [|r1 l2 l1 ls [n0 H0] _ [n IH]].
  - exists 0. constructor.
  - exists (Nat.max n0 n). constructor.
    + apply (call_of_list_mono n0 _ p _ _ H0). lia.
    + apply Forall2_impl with (2 := IH). intros r l Hr.
      apply (call_of_list_mono n _ p _ _ Hr). lia.
Qed.

Lemma produces_SeqParser p1 p2 T l :
  produces (SeqParser p1 p2) T l <->
  exists l1 ls, produces p1 T l1
                /\ Forall2 (fun r1 l2 => produces p2 (snd r1) l2) l1 ls
                /\ l = seq_results l1 ls.
Proof.
  split.
  - intros H. apply produces_fuel in H. destruct H as [n H].
    rewrite call_SeqParser in H. apply for_each_of_list_inv in H.
    destruct H as [l1 [lss [H1 [HF ->]]]].
    exists l1. cut (exists ls,
      Forall2 (fun r1 l2 => produces p2 (snd r1) l2) l1 ls
      /\ List.concat lss = seq_results l1 ls).
    { intros [ls [Hls E]]. exists ls. split; [exists n; exact H1|auto]. }
    clear H1. induction HF as [|[c1 T1] lsb l1 lss Hb _ [ls [Hls E]]].
    + exists []. split; [constructor|reflexivity].
    + rewrite (for_each_ext _ _ (call n p2 T1) _
                 (fun r2 => emit (Some (Some ((c1 + fst r2)%cons, snd r2)))))
        in Hb by (intros [c2 T2]; reflexivity).
      apply for_each_emit in Hb. destruct Hb as [l2 [H2 [_ ->]]].
      exists (l2 :: ls). split.
      * constructor; [exists n; exact H2|exact Hls].
      * rewrite seq_results_cons. simpl. rewrite E, flat_map_singleton.
        reflexivity.
  - intros [l1 [ls [[n1 H1] [HF ->]]]].
    apply Forall2_common_fuel in HF. destruct HF as [n2 HF].
    exists (Datatypes.S (Nat.max n1 n2)). rewrite call_SeqParser.
    rewrite (call_of_list_mono n1 (Nat.max n1 n2) p1 T l1 H1) by lia.
    unfold seq_results. apply for_each_of_list_concat.
    clear H1. induction HF as [|[c1 T1] l2 l1 ls H2 _ IH]; simpl.
    + constructor.
    + constructor; [|exact IH]. simpl in H2.
      rewrite (call_of_list_mono n2 (Nat.max n1 n2) p2 T1 l2 H2) by lia.
      rewrite <- flat_map_singleton.
      apply for_each_of_list. intros [c2 T2] _. reflexivity.
Qed.

(* ================================================================== *)
(** * Laws of the combinators *)

(** X1. [WordParser(w)] on tokens that start with [w] runs to its end with
    one result, the leaf of [w] and the tokens after it; on no tokens and on
    tokens that start with another word it runs to its end without
    result. *)
Theorem WordParser_one_result_or_none (w : string) (T : Tokens) :
  produces (word w) (w :: T) [(leaf w, T)]
  /\ produces (word w) [] []
  /\ (forall t, t <> w -> produces (word w) (t :: T) []).
Proof.
  split; [|split].
  - exists 1. simpl. rewrite String.eqb_refl. reflexivity.
  - exists 1. reflexivity.
  - intros t Ht. exists 1. simpl.
    apply String.eqb_neq in Ht. rewrite Ht. reflexivity.
Qed.

(** X2. [AltParser(p1, p2)(T)] runs to its end exactly when both [p1(T)]
    and [p2(T)] do, and its results are then the results of [p1] followed
    by the results of [p2]: a branch is never skipped because the other one
    succeeded. *)
Theorem AltParser_concatenates (p1 p2 : Parser) (T : Tokens)
        (l : list Result) :
  produces (AltParser p1 p2) T l <->
  exists l1 l2, produces p1 T l1 /\ produces p2 T l2 /\ l = l1 ++ l2.
Proof. apply produces_AltParser. Qed.

(** X3. Alternation is associative: [(p1 | p2) | p3] and [p1 | (p2 | p3)]
    produce the same results in the same order. *)
Theorem AltParser_associative (p1 p2 p3 : Parser) (T : Tokens)
        (l : list Result) :
  produces ((p1 || p2) || p3)%parser T l
  <-> produces (p1 || (p2 || p3))%parser T l.
Proof.
  rewrite !produces_AltParser. split.
  - intros [l12 [l3 [H12 [H3 ->]]]].
    apply produces_AltParser in H12. destruct H12 as [l1 [l2 [H1 [H2 ->]]]].
    exists l1, (l2 ++ l3). split; [exact H1|split].
    + apply produces_AltParser. exists l2, l3. auto.
    + symmetry. apply app_assoc.
  - intros [l1 [l23 [H1 [H23 ->]]]].
    apply produces_AltParser in H23. destruct H23 as [l2 [l3 [H2 [H3 ->]]]].
    exists (l1 ++ l2), l3. split; [|split; [exact H3|apply app_assoc]].
    apply produces_AltParser. exists l1, l2. auto.
Qed.

(** X4. [FilterParser(p)(T)] runs to its end exactly when [p(T)] does and
    the predicate raises on none of its results; its results are then the
    results of [p] that the predicate accepts, in the same order.  With the
    predicate of the base class, which accepts everything, the filter
    produces what [p] produces. *)
Theorem FilterParser_filters (p : Parser) (T : Tokens) (l : list Result) :
  (forall predicate,
      produces (FilterParser predicate p) T l <->
      exists l0, produces p T l0
                 /\ Forall (fun r => predicate (fst r) <> None) l0
                 /\ l = filter (accepted predicate) l0)
  /\ (produces (FilterParser FilterParser_predicate p) T l
      <-> produces p T l).
Proof.
  split; [intros predicate; apply produces_FilterParser|].
  rewrite produces_FilterParser. split.
  - intros [l0 [H0 [_ ->]]].
    replace (filter (accepted FilterParser_predicate) l0) with l0; auto.
    clear H0. induction l0 as [|r l0 IH]; simpl; congruence.
  - intros H. exists l. split; [exact H|split].
    + apply Forall_forall. intros r _. discriminate.
    + clear H. induction l as [|r l IH]; simpl; congruence.
Qed.

Lemma raises_for_each_emit (A B : Type) (k : B -> option (option A))
      (lb : list B) :
  Exists (fun b => k b = None) lb ->
  raises (for_each (of_list lb) (fun b => emit (k b))) = true.
Proof.
  induction lb as [|b lb IH]; intros H; inversion H; subst; simpl.
  - rewrite H1. reflexivity.
  - destruct (k b) as [[a|]|]; simpl; auto.
Qed.

(** X5. When the predicate of a filter raises on one of the results of the
    underlying parser, the call of the filter raises: it does not run to
    its end, whatever results come before or after. *)
Theorem FilterParser_raises (predicate : Constituent -> option bool)
        (p : Parser) (T : Tokens) (l : list Result) :
  produces p T l ->
  Exists (fun r => predicate (fst r) = None) l ->
  (exists fuel, raises (call fuel (FilterParser predicate p) T) = true)
  /\ (forall l', ~ produces (FilterParser predicate p) T l').
Proof.
  intros [n H] Hex. split.
  - exists (Datatypes.S n). rewrite call_FilterParser_emit, H.
    apply raises_for_each_emit.
    apply Exists_exists in Hex. destruct Hex as [r [Hin Hr]].
    apply Exists_exists. exists r. split; [exact Hin|].
    rewrite Hr. reflexivity.
  - intros l' Hl'. apply produces_FilterParser in Hl'.
    destruct Hl' as [l0 [H0 [HF _]]].
    assert (l0 = l) by (apply (produces_unique p T); [exact H0|exists n; exact H]).
    subst l0. apply Exists_exists in Hex. destruct Hex as [r [Hin Hr]].
    rewrite Forall_forall in HF. exact (HF r Hin Hr).
Qed.

(** The article "a" with nothing after it, as [Compl + star(N)] parses
    it. *)
Lemma FilterParser_raises_witness :
  (exists fuel,
      raises (call fuel (FilterValidArticle (Grammar.Compl + star Grammar.N))
                   ["a"]) = true)
  /\ (forall l',
         ~ produces (FilterValidArticle (Grammar.Compl + star Grammar.N))
                    ["a"] l').
Proof.
  apply (FilterParser_raises
           FilterValidArticle_predicate
           (Grammar.Compl + star Grammar.N)%parser ["a"]
           [((mkConstituent (Some "Compl") [] ["a"]
              + mkConstituent None [] [])%cons, [])]).
  - exists 6. vm_compute. reflexivity.
  - constructor. vm_compute. reflexivity.
Defined.

(** X6. [WholeParser(p)(T)] runs to its end exactly when [p(T)] does, with
    those results of [p] whose remainder is empty; and every result that it
    yields has an empty remainder and spans the whole of [T]. *)
Theorem WholeParser_anchors (p : Parser) (T : Tokens) :
  (forall l, produces (whole p) T l <->
             exists l0, produces p T l0 /\ l = filter consumed_all l0)
  /\ (forall fuel,
         Forall (fun r : Result => snd r = [] /\ words (fst r) = T)
                (items (call fuel (whole p) T))).
Proof.
  split; [intros l; apply produces_WholeParser|].
  intros fuel. apply Forall_forall. intros [c rest] Hin.
  apply call_sound in Hin.
  inversion Hin as [| | | | | | |p0 T0 c0 Hp|]; subst; clear Hin.
  apply (proj1 derives_prefix) in Hp. rewrite app_nil_r in Hp. auto.
Qed.

(** X7. Of two tags put on a parser one after the other, the outer one
    wins: [(p @ t1) @ t2] produces what [p @ t2] produces. *)
Theorem TagParser_outer_tag_wins (t1 t2 : string) (p : Parser) (T : Tokens)
        (l : list Result) :
  produces (TagParser t2 (TagParser t1 p)) T l
  <-> produces (TagParser t2 p) T l.
Proof.
  rewrite !produces_TagParser. split.
  - intros [l1 [H1 ->]]. apply produces_TagParser in H1.
    destruct H1 as [l0 [H0 ->]]. exists l0. split; [exact H0|].
    rewrite map_map. reflexivity.
  - intros [l0 [H0 ->]]. exists (map (relabel t1) l0). split.
    + apply produces_TagParser. exists l0. auto.
    + rewrite map_map. reflexivity.
Qed.

(** X8. Sequence distributes over an alternation on its left:
    [(p1 | p2) + p3] and [(p1 + p3) | (p2 + p3)] produce the same results
    in the same order. *)
Theorem SeqParser_distributes_over_AltParser (p1 p2 p3 : Parser)
        (T : Tokens) (l : list Result) :
  produces ((p1 || p2) + p3)%parser T l
  <-> produces ((p1 + p3) || (p2 + p3))%parser T l.
Proof.
  rewrite produces_SeqParser, produces_AltParser. split.
  - intros [l12 [ls [H12 [HF ->]]]].
    apply produces_AltParser in H12. destruct H12 as [la [lb [Ha [Hb ->]]]].
    apply Forall2_app_inv_l in HF.
    destruct HF as [lsa [lsb [HFa [HFb ->]]]].
    exists (seq_results la lsa), (seq_results lb lsb). split; [|split].
    + apply produces_SeqParser. exists la, lsa. auto.
    + apply produces_SeqParser. exists lb, lsb. auto.
    + apply seq_results_app with (1 := HFa).
  - intros [x [y [Hx [Hy ->]]]].
    apply produces_SeqParser in Hx. destruct Hx as [la [lsa [Ha [HFa ->]]]].
    apply produces_SeqParser in Hy. destruct Hy as [lb [lsb [Hb [HFb ->]]]].
    exists (la ++ lb), (lsa ++ lsb). split; [|split].
    + apply produces_AltParser. exists la, lb. auto.
    + apply Forall2_app; assumption.
    + symmetry. apply seq_results_app with (1 := HFa).
Qed.

(* ================================================================== *)
(** * Recursion, termination and repetition *)

Lemma left_recursion_fuel fp : leftmost_self fp = true ->
  forall n,
    (forall T, call n (RecursiveParser fp) T = OutOfFuel)
    /\ (forall b T, leftmost_self b = true ->
                    call n (apply_fp 0 (RecursiveParser fp) b) T = OutOfFuel).
Proof.
  intros Hfp. induction n as [|n [IH1 IH2]]; [split; reflexivity|].
  assert (H1 : forall T, call (Datatypes.S n) (RecursiveParser fp) T
                         = OutOfFuel).
  { intros T. simpl. apply IH2. exact Hfp. }
  split; [exact H1|].
  intros b T Hb. destruct b; simpl in Hb; try discriminate.
  - simpl. rewrite IH2; auto.
  - simpl. rewrite IH2; auto.
  - simpl. rewrite IH2; auto.
  - simpl. rewrite IH2; auto.
  - apply Nat.eqb_eq in Hb. subst k. simpl apply_fp. apply H1.
  - simpl. rewrite IH2; auto.
Qed.

(** X9. A [RecursiveParser] whose argument stands leftmost in its body (as
    the left operand of a sequence or of an alternation, under tags,
    filters or [whole]) yields nothing and never ends, on any tokens: the
    case that the documentation of the class rules out. *)
Theorem left_recursion_diverges (fp : Parser) :
  leftmost_self fp = true ->
  forall fuel T, call fuel (recursive fp) T = OutOfFuel.
Proof.
  intros Hfp fuel T. apply (left_recursion_fuel fp Hfp fuel).
Qed.

Lemma left_recursion_diverges_witness :
  call 1000 (recursive ((Self 0 + Grammar.Adj) || Grammar.N)%parser)
       ["fox"; "quick"]
  = OutOfFuel.
Proof.
  apply (left_recursion_diverges
           ((Self 0 + Grammar.Adj) || Grammar.N)%parser eq_refl
           1000 ["fox"; "quick"]).
Defined.

Lemma loop_free_consumes p : loop_free p ->
  forall T c rest, derives p T c rest -> List.length rest < List.length T.
Proof.
  induction p as [w|p1 IH1 p2 IH2|p1 IH1 p2 IH2|t p IH|predicate p IH
                 |fp IH|k|p IH|p IH];
    simpl; intros Hp T c rest H; try contradiction;
    inversion H; subst; clear H.
  - simpl. lia.
  - destruct Hp as [Hp1 Hp2].
    match goal with
    | Ha : derives p1 _ _ ?T1, Hb : derives p2 ?T1 _ _ |- _ =>
        apply (IH1 Hp1) in Ha; apply (IH2 Hp2) in Hb; lia
    end.
  - destruct Hp; eauto.
  - destruct Hp; eauto.
  - eauto.
  - destruct Hp; eauto.
  - eauto.
Qed.

Lemma Forall2_total (A B : Type) (Q : A -> B -> Prop) :
  (forall a, exists b, Q a b) -> forall l, exists ls, Forall2 Q l ls.
Proof.
  intros H. induction l as [|a l [ls IH]].
  - exists []. constructor.
  - destruct (H a) as [b Hb]. exists (b :: ls). constructor; auto.
Qed.

Lemma loop_free_total p : loop_free p -> forall T, exists l, produces p T l.
Proof.
  induction p as [w|p1 IH1 p2 IH2|p1 IH1 p2 IH2|t p IH|predicate p IH
                 |fp IH|k|p IH|p IH];
    simpl; intros Hp T; try contradiction.
  - destruct T as [|t T]; [exists []; exists 1; reflexivity|].
    destruct (String.eqb t w) eqn:E.
    + exists [(mkConstituent None [] [w], T)]. exists 1. simpl.
      rewrite E. reflexivity.
    + exists []. exists 1. simpl. rewrite E. reflexivity.
  - destruct Hp as [Hp1 Hp2]. destruct (IH1 Hp1 T) as [l1 H1].
    destruct (Forall2_total _ _
                (fun (r1 : Result) l2 => produces p2 (snd r1) l2)
                (fun r1 => IH2 Hp2 (snd r1)) l1) as [ls Hls].
    exists (seq_results l1 ls). apply produces_SeqParser. eauto.
  - destruct Hp as [Hp1 Hp2].
    destruct (IH1 Hp1 T) as [l1 H1], (IH2 Hp2 T) as [l2 H2].
    exists (l1 ++ l2). apply produces_AltParser. eauto.
  - destruct (IH Hp T) as [l0 H0].
    exists (map (relabel t) l0). apply produces_TagParser. eauto.
  - destruct Hp as [Hpred Hp]. destruct (IH Hp T) as [l0 H0].
    exists (filter (accepted predicate) l0). apply produces_FilterParser.
    exists l0. split; [exact H0|split; [|reflexivity]].
    apply Forall_forall. intros r _. apply Hpred.
  - destruct (IH Hp T) as [l0 H0].
    exists (filter consumed_all l0). apply produces_WholeParser. eauto.
Qed.

(** A parser that runs to its end on every input and consumes a token with
    every result makes progress. *)
Lemma total_consuming_progresses p :
  (forall T, exists l, produces p T l) ->
  (forall T c rest, derives p T c rest -> List.length rest < List.length T) ->
  forall T, progresses p T.
Proof.
  intros Htot Hcons T T' _ _. destruct (Htot T') as [[|[c T1] l] [n H]].
  - left. exists n. exact H.
  - right. exists c, T1. split.
    + exists n. exists (of_list l). exact H.
    + apply (Hcons T' c T1). apply (call_sound n). rewrite H. simpl. auto.
Qed.

(** X10. A parser built from words, sequences, alternations, tags, [whole]
    and filters whose predicate does not raise runs to its end on every
    token sequence, and so does its repetition, with exactly one
    result. *)
Theorem loop_free_terminates (p : Parser) :
  loop_free p ->
  forall T, (exists l, produces p T l)
            /\ (exists r, produces (star p) T [r]).
Proof.
  intros Hp T. split; [apply loop_free_total; exact Hp|].
  destruct (star_run_exists p T) as [cs [rest Hrun]].
  - apply total_consuming_progresses.
    + apply loop_free_total; exact Hp.
    + apply loop_free_consumes; exact Hp.
  - eexists. apply star_run_produces. exact Hrun.
Qed.

Lemma loop_free_terminates_witness :
  (exists l, produces ((word "a" + word "b") || word "c" @@ "C")%parser
                      ["a"; "b"; "c"; "d"] l)
  /\ (exists r,
         produces (star ((word "a" + word "b") || word "c" @@ "C")%parser)
                  ["a"; "b"; "c"; "d"] [r]).
Proof.
  apply (loop_free_terminates
           ((word "a" + word "b") || word "c" @@ "C")%parser).
  simpl. auto.
Defined.

Lemma star_loop_shape (run : Tokens -> Gen Result) :
  forall k children T,
    star_loop run k children T = OutOfFuel
    \/ star_loop run k children T = Raise
    \/ exists r, star_loop run k children T = Yield r Stop.
Proof.
  induction k as [|k IH]; intros children [|t T]; simpl; eauto.
  destruct (run (t :: T)) as [|[tree remainder] g| |]; eauto.
Qed.

(** X11. A call of [star(p)] never ends without result and never yields a
    second result: when it is not cut short (by an exception of [p] or by a
    computation without end), it yields one result and stops.  On no tokens
    it yields the empty constituent without calling [p] at all. *)
Theorem star_yields_once (p : Parser) :
  (forall fuel T,
      call fuel (star p) T = OutOfFuel
      \/ call fuel (star p) T = Raise
      \/ exists r, call fuel (star p) T = Yield r Stop)
  /\ (forall l T, produces (star p) T l -> exists r, l = [r])
  /\ call 1 (star p) [] = Yield (mkConstituent None [] [], []) Stop.
Proof.
  assert (H : forall fuel T,
             call fuel (star p) T = OutOfFuel
             \/ call fuel (star p) T = Raise
             \/ exists r, call fuel (star p) T = Yield r Stop).
  { intros [|fuel] T; simpl; auto. apply star_loop_shape. }
  split; [exact H|split; [|reflexivity]].
  intros l T [fuel Hl]. destruct (H fuel T) as [E|[E|[r E]]]; rewrite E in Hl.
  - symmetry in Hl. apply of_list_not_OutOfFuel in Hl. contradiction.
  - symmetry in Hl. apply of_list_not_Raise in Hl. contradiction.
  - exists r. destruct l as [|r' [|r'' l]]; try discriminate.
    inversion Hl. reflexivity.
Qed.

(** X12. Repetition is greedy and does not give back: for a parser [p]
    without recursion or repetition, [SeqParser(star(p), p)] matches
    nothing, on any tokens, since [star(p)] stops only where [p] has no
    result.  (The sequence is built with the constructor: a [StarParser]
    has no operator [+].) *)
Theorem star_is_greedy (p : Parser) :
  loop_free p -> forall T, produces (SeqParser (star p) p) T [].
Proof.
  intros Hp T.
  destruct (star_run_exists p T) as [cs [rest Hrun]].
  { apply total_consuming_progresses.
    - apply loop_free_total; exact Hp.
    - apply loop_free_consumes; exact Hp. }
  apply produces_SeqParser.
  exists [(mkConstituent None cs (flat_map words cs), rest)], [[]].
  split; [apply star_run_produces; exact Hrun|split; [|reflexivity]].
  constructor; [|constructor]. simpl.
  destruct (star_run_stops p T cs rest Hrun) as [->|[n Hn]].
  - destruct (loop_free_total p Hp []) as [[|[c T1] l] [n H]].
    + exists n. exact H.
    + exfalso. assert (Hd : derives p [] c T1).
      { apply (call_sound n). rewrite H. simpl. auto. }
      apply (loop_free_consumes p Hp) in Hd. simpl in Hd. lia.
  - exists n. exact Hn.
Qed.

Lemma star_is_greedy_witness :
  produces (SeqParser (star (word "a")) (word "a")) ["a"; "a"; "b"] [].
Proof.
  apply (star_is_greedy (word "a")). exact I.
Defined.

(* ================================================================== *)
(** * The grammar is not ambiguous *)

Lemma produces_sound p T l c rest :
  produces p T l -> In (c, rest) l -> derives p T c rest.
Proof.
  intros [n H] Hin. apply (call_sound n). rewrite H, items_of_list. exact Hin.
Qed.

Lemma one_word_loop_free p : one_word p = true -> loop_free p.
Proof.
  induction p; simpl; intros H; try discriminate; auto.
  apply andb_true_iff in H. destruct H. auto.
Qed.

Lemma Forall2_total_in (A B : Type) (Q : A -> B -> Prop) (l : list A) :
  (forall a, In a l -> exists b, Q a b) -> exists ls, Forall2 Q l ls.
Proof.
  induction l as [|a l IH]; intros H.
  - exists []. constructor.
  - destruct (H a) as [b Hb]; [left; reflexivity|].
    destruct IH as [ls Hls]; [intros a' Ha'; apply H; right; exact Ha'|].
    exists (b :: ls). constructor; auto.
Qed.

Lemma NP0_unfold T l :
  produces Grammar.NP0 T l <->
  produces ((Grammar.N || (Grammar.Adj + Grammar.NP0)) @@ "NP")%parser T l.
Proof. apply produces_RecursiveParser. Qed.

Lemma derives_lexical p : one_word p = true ->
  forall T c rest, derives p T c rest ->
  exists w, In w (lexicon p) /\ T = w :: rest
            /\ children c = [] /\ words c = [w].
Proof.
  induction p as [w|p1 IH1 p2 IH2|p1 IH1 p2 IH2|t p IH|predicate p IH
                 |fp IH|k|p IH|p IH];
    simpl; intros Hp T c rest H; try discriminate;
    inversion H; subst; clear H.
  - exists w. simpl. auto.
  - apply andb_true_iff in Hp. destruct Hp as [Hp1 _].
    match goal with Hd : derives p1 _ _ _ |- _ =>
      destruct (IH1 Hp1 _ _ _ Hd) as [w [Hin Hw]] end.
    exists w. split; [apply in_or_app; left; exact Hin|exact Hw].
  - apply andb_true_iff in Hp. destruct Hp as [_ Hp2].
    match goal with Hd : derives p2 _ _ _ |- _ =>
      destruct (IH2 Hp2 _ _ _ Hd) as [w [Hin Hw]] end.
    exists w. split; [apply in_or_app; right; exact Hin|exact Hw].
  - match goal with Hd : derives p _ _ _ |- _ =>
      destruct (IH Hp _ _ _ Hd) as [w Hw] end.
    exists w. exact Hw.
Qed.

Lemma derives_tagged t p : one_word p = true ->
  forall T c rest, derives (TagParser t p) T c rest ->
  exists w, In w (lexicon p) /\ T = w :: rest
            /\ c = mkConstituent (Some t) [] [w].
Proof.
  intros Hp T c rest H.
  inversion H as [| | | |t' p' T' c0 T1 Hd| | | |]; subst; clear H.
  destruct (derives_lexical p Hp _ _ _ Hd) as [w [Hin [HT [Hch Hws]]]].
  exists w. split; [exact Hin|split; [exact HT|]].
  destruct c0 as [t0 ch ws]. simpl in *. subst. reflexivity.
Qed.

(** The two ways of a noun phrase without article: a noun, or an
    adjective before such a noun phrase. *)
Lemma NP0_inv T c rest :
  derives Grammar.NP0 T c rest ->
  (exists n, In n (lexicon Grammar.N) /\ T = n :: rest
             /\ c = mkConstituent (Some "NP") [] [n])
  \/ (exists a T' c2,
         In a (lexicon Grammar.Adj) /\ T = a :: T'
         /\ derives Grammar.NP0 T' c2 rest
         /\ c = mkConstituent (Some "NP")
                              [mkConstituent (Some "Adj") [] [a]; c2]
                              (a :: words c2)).
Proof.
  intros H. unfold Grammar.NP0 at 1, recursive in H.
  inversion H as [| | | | | |fp T' c' T1 Hbody| |]; subst; clear H.
  change (derives ((Grammar.N || (Grammar.Adj + Grammar.NP0)) @@ "NP")%parser
                  T c rest) in Hbody.
  inversion Hbody as [| | | |t p T' c0 T1 Halt| | | |]; subst; clear Hbody.
  inversion Halt as [| |p1 p2 T' c' T1 HN|p1 p2 T' c' T1 Hseq| | | | |];
    subst; clear Halt.
  - left.
    destruct (derives_tagged
                "N" (word "fox" || word "wolf" || word "ant" || word "table")
                eq_refl _ _ _ HN) as [n [Hin [HT ->]]].
    exists n. auto.
  - right.
    inversion Hseq as [|p1 p2 T' c1 T1 c2 T2 HAdj HNP0| | | | | | |];
      subst; clear Hseq.
    destruct (derives_tagged
                "Adj" (word "quick" || word "brown" || word "table"
                       || word "caught" || word "adorable")
                eq_refl _ _ _ HAdj) as [a [Hin [HT ->]]].
    exists a, T1, c2. auto.
Qed.

Lemma NP0_consumes T c rest :
  derives Grammar.NP0 T c rest -> List.length rest < List.length T.
Proof.
  intros H. pose proof (NP0_has_a_word T c rest H) as Hw.
  apply (proj1 derives_prefix) in H. rewrite <- H, List.length_app. lia.
Qed.

Lemma NP0_unique : forall T c c' rest,
  derives Grammar.NP0 T c rest -> derives Grammar.NP0 T c' rest -> c = c'.
Proof.
  induction T as [|t T IH]; intros c c' rest H H'.
  - apply NP0_consumes in H. simpl in H. lia.
  - destruct (NP0_inv _ _ _ H) as [[n [_ [HT ->]]]|[a [T1 [c2 [_ [HT [H2 ->]]]]]]];
      destruct (NP0_inv _ _ _ H')
        as [[n' [_ [HT' ->]]]|[a' [T1' [c2' [_ [HT' [H2' ->]]]]]]];
      inversion HT; inversion HT'; subst.
    + reflexivity.
    + apply NP0_consumes in H2'. lia.
    + apply NP0_consumes in H2. lia.
    + rewrite (IH c2 c2' rest H2 H2'). reflexivity.
Qed.

Lemma NP_inv T c rest :
  derives Grammar.NP T c rest ->
  exists w T1 c0,
    T = w :: T1 /\ derives Grammar.NP0 T1 c0 rest
    /\ c = mkConstituent (Some "NP")
                         [mkConstituent (Some "Compl") [] [w]; c0]
                         (w :: words c0).
Proof.
  intros H. unfold Grammar.NP, FilterValidArticle in H.
  inversion H as [| | | |t p T' c0 T1 Hf| | | |]; subst; clear H.
  inversion Hf as [| | | | |pr p T' c' T1 Hseq Hpr| | |]; subst; clear Hf.
  inversion Hseq as [|p1 p2 T' c1 T1 c2 T2 HC HNP0| | | | | | |];
    subst; clear Hseq.
  destruct (derives_tagged "Compl" (word "a" || word "an" || word "the")
                           eq_refl _ _ _ HC) as [w [_ [HT ->]]].
  exists w, T1, c2. auto.
Qed.

Lemma NP_unique T c c' rest :
  derives Grammar.NP T c rest -> derives Grammar.NP T c' rest -> c = c'.
Proof.
  intros H H'.
  destruct (NP_inv _ _ _ H) as [w [T1 [c0 [HT [H0 ->]]]]].
  destruct (NP_inv _ _ _ H') as [w' [T1' [c0' [HT' [H0' ->]]]]].
  subst T. inversion HT'; subst.
  rewrite (NP0_unique _ _ _ _ H0 H0'). reflexivity.
Qed.

Lemma same_suffix (A : Type) (a a' b b' : list A) :
  a ++ b = a' ++ b' -> List.length b = List.length b' -> b = b'.
Proof.
  revert a'. induction a as [|x a IH]; intros [|x' a'] E Hl; simpl in E.
  - exact E.
  - subst b. simpl in Hl. rewrite List.length_app in Hl. lia.
  - subst b'. simpl in Hl. rewrite List.length_app in Hl. lia.
  - inversion E. eauto.
Qed.

Lemma S_unique T c c' rest :
  derives Grammar.S T c rest -> derives Grammar.S T c' rest -> c = c'.
Proof.
  intros H H'. unfold Grammar.S in H, H'.
  inversion H as [| | | |t p T0 c0 T1 Hseq| | | |]; subst; clear H.
  inversion H' as [| | | |t p T0 c0' T1 Hseq'| | | |]; subst; clear H'.
  inversion Hseq as [|p1 p2 T' c1 T1 c2 T2 HNP HVP| | | | | | |];
    subst; clear Hseq.
  inversion Hseq' as [|p1 p2 T' c1' T1' c2' T2 HNP' HVP'| | | | | | |];
    subst; clear Hseq'.
  destruct (derives_tagged "VP" Grammar.V eq_refl _ _ _ HVP)
    as [v [_ [HT ->]]].
  destruct (derives_tagged "VP" Grammar.V eq_refl _ _ _ HVP')
    as [v' [_ [HT' ->]]].
  assert (E : T1 = T1').
  { apply (same_suffix _ (words c1) (words c1')).
    - rewrite (proj1 derives_prefix _ _ _ _ HNP).
      rewrite (proj1 derives_prefix _ _ _ _ HNP'). reflexivity.
    - subst. reflexivity. }
  rewrite <- E in HT', HNP'. rewrite HT in HT'. inversion HT'; subst v'.
  rewrite (NP_unique _ _ _ _ HNP HNP'). reflexivity.
Qed.

(** X14. The grammar is not ambiguous: two results of the sentence rule
    [S] on the same tokens that leave the same remainder are the same tree,
    and likewise for [NP0] and [NP]; so all the parses of a whole sentence
    are one tree. *)
Theorem grammar_unambiguous (fuel fuel' : nat) (T : Tokens)
        (c c' : Constituent) (rest : Tokens) :
  (In (c, rest) (items (call fuel Grammar.NP0 T)) ->
   In (c', rest) (items (call fuel' Grammar.NP0 T)) -> c = c')
  /\ (In (c, rest) (items (call fuel Grammar.NP T)) ->
      In (c', rest) (items (call fuel' Grammar.NP T)) -> c = c')
  /\ (In (c, rest) (items (call fuel Grammar.S T)) ->
      In (c', rest) (items (call fuel' Grammar.S T)) -> c = c')
  /\ (In (c, rest) (items (call fuel (whole Grammar.S) T)) ->
      In (c', rest) (items (call fuel' (whole Grammar.S) T)) -> c = c').
Proof.
  split; [|split; [|split]]; intros H H';
    apply call_sound in H; apply call_sound in H'.
  - exact (NP0_unique _ _ _ _ H H').
  - exact (NP_unique _ _ _ _ H H').
  - exact (S_unique _ _ _ _ H H').
  - inversion H; inversion H'; subst.
    match goal with
    | Ha : derives Grammar.S _ c _, Hb : derives Grammar.S _ c' _ |- _ =>
        exact (S_unique _ _ _ _ Ha Hb)
    end.
Qed.

(** X15. The predicate of [FilterValidArticle] raises exactly on a
    constituent whose first child is tagged [Compl] and whose words are
    missing where it looks: no word at all, or the single word "a" or
    "an". *)
Theorem FilterValidArticle_predicate_raises (c : Constituent) :
  FilterValidArticle_predicate c = None <->
  determiner_first c
  /\ (words c = [] \/ words c = ["a"] \/ words c = ["an"]).
Proof.
  rewrite <- determiner_firstb_spec.
  unfold FilterValidArticle_predicate, determiner_firstb.
  destruct (children c) as [|c0 cs]; [split; [discriminate|intros [? _]; discriminate]|].
  destruct (tag_eqb (tag c0) (Some "Compl")); simpl;
    [|split; [discriminate|intros [? _]; discriminate]].
  destruct (words c) as [|w0 [|w1 ws]]; simpl.
  - split; auto.
  - destruct (String.eqb w0 "a") eqn:Ea;
      [|destruct (String.eqb w0 "an") eqn:Ean].
    + apply String.eqb_eq in Ea. subst. split; auto.
    + apply String.eqb_eq in Ean. subst. split; auto.
    + apply String.eqb_neq in Ea, Ean. split; [discriminate|].
      intros [_ [H|[H|H]]]; congruence.
  - split.
    + destruct (String.eqb w0 "a"); [discriminate|].
      destruct (String.eqb w0 "an"); discriminate.
    + intros [_ [H|[H|H]]]; discriminate.
Qed.

Lemma size_add a b : size (a + b)%cons = Datatypes.S (size a + (size b + 0)).
Proof. reflexivity. Qed.

(** X16. Concatenation of constituents is associative on the words but
    never on the trees: [(a + b) + c] and [a + (b + c)] have the same
    words, and [__eq__] answers [False] on them. *)
Theorem Constituent_add_not_associative (a b c : Constituent) :
  words ((a + b) + c)%cons = words (a + (b + c))%cons
  /\ Constituent_eq ((a + b) + c)%cons (PyConstituent (a + (b + c))%cons)
     = false
  /\ Constituent_ne ((a + b) + c)%cons (PyConstituent (a + (b + c))%cons)
     = true.
Proof.
  assert (H : Constituent_eqb ((a + b) + c)%cons (a + (b + c))%cons = false).
  { destruct (Constituent_eqb ((a + b) + c)%cons (a + (b + c))%cons) eqn:E;
      [|reflexivity].
    apply Constituent_eqb_eq in E. inversion E as [[Hab Hc Hw]].
    apply (f_equal size) in Hab. rewrite size_add in Hab. lia. }
  split; [|split].
  - simpl. symmetry. apply app_assoc.
  - exact H.
  - unfold Constituent_ne, Constituent_eq. rewrite H. reflexivity.
Qed.

(* ================================================================== *)
(** * What the grammar accepts *)

Lemma NP0_sound : forall T c rest,
  derives Grammar.NP0 T c rest ->
  exists adjs n,
    Forall (fun a => In a adjectives) adjs /\ In n nouns
    /\ T = adjs ++ n :: rest /\ c = np0_tree adjs n.
Proof.
  induction T as [|t T IH]; intros c rest H.
  - apply NP0_consumes in H. simpl in H. lia.
  - destruct (NP0_inv _ _ _ H)
      as [[n [Hn [HT ->]]]|[a [T1 [c2 [Ha [HT [H2 ->]]]]]]].
    + exists [], n. repeat split; auto.
    + inversion HT; subst.
      destruct (IH c2 rest H2) as [adjs [n [Hadjs [Hn [-> ->]]]]].
      exists (a :: adjs), n. repeat split; auto.
Qed.

Lemma lexical_complete p : one_word p = true ->
  forall w rest l, In w (lexicon p) -> produces p (w :: rest) l ->
  exists c, In (c, rest) l /\ children c = [] /\ words c = [w].
Proof.
  induction p as [w0|p1 IH1 p2 IH2|p1 IH1 p2 IH2|t p IH|predicate p IH
                 |fp IH|k|p IH|p IH];
    simpl; intros Hp w rest l Hin Hl; try discriminate.
  - destruct Hin as [->|[]].
    assert (E : l = [(mkConstituent None [] [w], rest)]).
    { apply (produces_unique (WordParser w) (w :: rest)); [exact Hl|].
      exists 1. simpl. rewrite String.eqb_refl. reflexivity. }
    subst l. eexists. split; [left; reflexivity|auto].
  - apply andb_true_iff in Hp. destruct Hp as [Hp1 Hp2].
    apply produces_AltParser in Hl. destruct Hl as [l1 [l2 [H1 [H2 ->]]]].
    apply in_app_or in Hin. destruct Hin as [Hin|Hin].
    + destruct (IH1 Hp1 w rest l1 Hin H1) as [c [Hc Hw]].
      exists c. split; [apply in_or_app; left; exact Hc|exact Hw].
    + destruct (IH2 Hp2 w rest l2 Hin H2) as [c [Hc Hw]].
      exists c. split; [apply in_or_app; right; exact Hc|exact Hw].
  - apply produces_TagParser in Hl. destruct Hl as [l0 [H0 ->]].
    destruct (IH Hp w rest l0 Hin H0) as [c [Hc Hw]].
    exists (c @@ t)%cons. split; [|exact Hw].
    apply (in_map (relabel t) l0 (c, rest)). exact Hc.
Qed.

Lemma tagged_complete t p : one_word p = true ->
  forall w rest l, In w (lexicon p) ->
    produces (TagParser t p) (w :: rest) l ->
    In (mkConstituent (Some t) [] [w], rest) l.
Proof.
  intros Hp w rest l Hin Hl.
  destruct (lexical_complete (TagParser t p) Hp w rest l Hin Hl)
    as [c [Hc [Hch Hws]]].
  apply produces_TagParser in Hl. destruct Hl as [l0 [_ ->]].
  apply in_map_iff in Hc. destruct Hc as [[c0 rest0] [E Hc0]].
  apply in_map_iff. exists (c0, rest0). split; [|exact Hc0].
  unfold relabel in *. simpl in *. inversion E; subst.
  destruct c0 as [t0 ch ws]. simpl in *. subst. reflexivity.
Qed.

Lemma in_seq_results (Q : Result -> list Result -> Prop) l1 ls r1 r2 :
  Forall2 Q l1 ls -> In r1 l1 ->
  (forall l2, Q r1 l2 -> In r2 l2) ->
  In ((fst r1 + fst r2)%cons, snd r2) (seq_results l1 ls).
Proof.
  intros HF Hin Hr2. induction HF as [|r l2 l1 ls Hq _ IH].
  - contradiction.
  - rewrite seq_results_cons. apply in_or_app. destruct Hin as [->|Hin].
    + left.
      apply (in_map (fun r2 : Result => ((fst r1 + fst r2)%cons, snd r2))).
      apply Hr2. exact Hq.
    + right. apply IH. exact Hin.
Qed.

Lemma NP0_complete : forall adjs n rest l,
  Forall (fun a => In a adjectives) adjs -> In n nouns ->
  produces Grammar.NP0 (adjs ++ n :: rest) l ->
  In (np0_tree adjs n, rest) l.
Proof.
  induction adjs as [|a adjs IH]; intros n rest l Hadjs Hn Hl;
    apply NP0_unfold in Hl; apply produces_TagParser in Hl;
    destruct Hl as [l0 [H0 ->]];
    apply produces_AltParser in H0; destruct H0 as [lN [lS [HN [HS ->]]]].
  - apply (in_map (relabel "NP") _
                  (mkConstituent (Some "N") [] [n], rest)).
    apply in_or_app. left.
    apply (tagged_complete
             "N" (word "fox" || word "wolf" || word "ant" || word "table")
             eq_refl n rest lN Hn HN).
  - inversion Hadjs as [|a' adjs' Ha Hadjs']; subst.
    apply produces_SeqParser in HS. destruct HS as [lA [ls [HA [HF ->]]]].
    apply (in_map (relabel "NP") _
                  ((mkConstituent (Some "Adj") [] [a]
                    + np0_tree adjs n)%cons, rest)).
    apply in_or_app. right.
    apply (in_seq_results
             _ lA ls (mkConstituent (Some "Adj") [] [a], adjs ++ n :: rest)
             (np0_tree adjs n, rest) HF).
    + apply (tagged_complete
               "Adj" (word "quick" || word "brown" || word "table"
                      || word "caught" || word "adorable")
               eq_refl a (adjs ++ n :: rest) lA Ha HA).
    + intros l2 Hl2. apply IH; assumption.
Qed.

(** X17. [NP0] accepts exactly the noun phrases made of adjectives of the
    grammar followed by one of its nouns: every result of [NP0] on [T] is
    the tree of such a phrase that starts [T], and whenever [NP0] runs to
    its end on [T], every such phrase at the start of [T] is among its
    results. *)
Theorem NP0_language :
  (forall fuel T c rest,
      In (c, rest) (items (call fuel Grammar.NP0 T)) ->
      exists adjs n,
        Forall (fun a => In a adjectives) adjs /\ In n nouns
        /\ T = adjs ++ n :: rest /\ c = np0_tree adjs n)
  /\ (forall adjs n rest l,
         Forall (fun a => In a adjectives) adjs -> In n nouns ->
         produces Grammar.NP0 (adjs ++ n :: rest) l ->
         In (np0_tree adjs n, rest) l).
Proof.
  split.
  - intros fuel T c rest Hin. apply call_sound in Hin.
    apply NP0_sound. exact Hin.
  - apply NP0_complete.
Qed.

Lemma NP0_language_witness :
  In (np0_tree ["quick"; "brown"] "fox", ["jumped"])
     [(np0_tree ["quick"; "brown"] "fox", ["jumped"])].
Proof.
  apply (proj2 NP0_language ["quick"; "brown"] "fox" ["jumped"]).
  - repeat (apply Forall_cons || apply Forall_nil); simpl; auto 10.
  - simpl; auto.
  - exists 18. vm_compute. reflexivity.
Defined.

Lemma NP_inv_accepted T c rest :
  derives Grammar.NP T c rest ->
  exists d c0,
    In d articles
    /\ c = mkConstituent (Some "NP")
                         [mkConstituent (Some "Compl") [] [d]; c0]
                         (d :: words c0)
    /\ 1 <= List.length (words c0)
    /\ FilterValidArticle_predicate
         (mkConstituent None [mkConstituent (Some "Compl") [] [d]; c0]
                        (d :: words c0)) = Some true.
Proof.
  intros H. unfold Grammar.NP, FilterValidArticle in H.
  inversion H as [| | | |t p T' c0 T1 Hf| | | |]; subst; clear H.
  inversion Hf as [| | | | |pr p T' c' T1 Hseq Hpr| | |]; subst; clear Hf.
  inversion Hseq as [|p1 p2 T' c1 T1 c2 T2 HC HNP0| | | | | | |];
    subst; clear Hseq.
  destruct (derives_tagged "Compl" (word "a" || word "an" || word "the")
                           eq_refl _ _ _ HC) as [d [Hd [HT E]]].
  subst c1. exists d, c2. split; [exact Hd|split; [reflexivity|split]].
  - apply (NP0_has_a_word _ _ _ HNP0).
  - exact Hpr.
Qed.

(** X18. Every noun phrase that [NP] yields has an article of the grammar
    as first word and a second word, and the two agree: after "a" the
    second word does not start with one of the letters a, e, i, o, u, and
    after "an" it does. *)
Theorem NP_article_agrees (fuel : nat) (T : Tokens) :
  Forall (fun r : Result =>
            exists d w1 ws,
              words (fst r) = d :: w1 :: ws
              /\ In d articles
              /\ (d = "a" -> ~ starts_with_aeiou w1)
              /\ (d = "an" -> starts_with_aeiou w1))
         (items (call fuel Grammar.NP T)).
Proof.
  apply Forall_forall. intros [c rest] Hin. apply call_sound in Hin.
  destruct (NP_inv_accepted _ _ _ Hin) as [d [c0 [Hd [-> [Hlen Hpr]]]]].
  simpl. destruct (words c0) as [|w1 ws] eqn:Ew; [simpl in Hlen; lia|].
  exists d, w1, ws. split; [reflexivity|split; [exact Hd|]].
  unfold FilterValidArticle_predicate in Hpr. simpl in Hpr.
  split; intros ->; simpl in Hpr.
  - intros Hv. assert (Hre : re_match_class true aeiou w1 = false)
      by (apply re_match_class_not_aeiou; right; exact Hv).
    congruence.
  - apply re_match_class_aeiou. congruence.
Qed.

Lemma append_assoc (s1 s2 s3 : string) :
  ((s1 ++ s2) ++ s3 = s1 ++ s2 ++ s3)%string.
Proof. induction s1 as [|ch s1 IH]; simpl; congruence. Qed.

Lemma Constituent_str_np0_tree adjs n :
  Constituent_str (np0_tree adjs n) = np0_str adjs n.
Proof.
  induction adjs as [|a adjs IH]; [reflexivity|].
  simpl np0_tree. cbn [Constituent_str String.concat]. rewrite IH.
  cbn [append np0_str]. rewrite !append_assoc. reflexivity.
Qed.

(** X19. [__str__] writes every noun phrase that [NP0] yields as nested
    brackets, one [NP(Adj(..),..)] for each adjective around the [NP(..)]
    of the noun: the tag [N] of the noun does not show, since the tag [NP]
    has replaced it. *)
Theorem NP0_results_str (fuel : nat) (T : Tokens) :
  Forall (fun r : Result =>
            exists adjs n,
              T = adjs ++ n :: snd r
              /\ Constituent_str (fst r) = np0_str adjs n)
         (items (call fuel Grammar.NP0 T)).
Proof.
  apply Forall_forall. intros [c rest] Hin. apply call_sound in Hin.
  destruct (NP0_sound _ _ _ Hin) as [adjs [n [_ [_ [HT ->]]]]].
  exists adjs, n. split; [exact HT|apply Constituent_str_np0_tree].
Qed.

Lemma words_np0_tree adjs n : words (np0_tree adjs n) = adjs ++ [n].
Proof. induction adjs as [|a adjs IH]; simpl; congruence. Qed.

Lemma predicate_agrees d c0 w1 ws :
  w1 <> "" ->
  (FilterValidArticle_predicate
     (mkConstituent None [mkConstituent (Some "Compl") [] [d]; c0]
                    (d :: w1 :: ws)) = Some true
   <-> agrees d w1).
Proof.
  intros Hw1. unfold FilterValidArticle_predicate, agrees. simpl.
  pose proof (re_match_class_not_aeiou w1) as Hnot.
  pose proof (re_match_class_aeiou w1) as Hin.
  destruct (String.eqb d "a") eqn:Ea; [|destruct (String.eqb d "an") eqn:Ean].
  - apply String.eqb_eq in Ea. subst d. split.
    + intros H. split; [|discriminate]. intros _ Hv.
      assert (re_match_class true aeiou w1 = false) by (apply Hnot; auto).
      congruence.
    + intros [H _]. destruct (re_match_class true aeiou w1); [reflexivity|].
      destruct (proj1 Hnot eq_refl) as [E|Hv]; [contradiction|].
      exfalso. apply H; auto.
  - apply String.eqb_eq in Ean. subst d. split.
    + intros H. split; [discriminate|]. intros _. apply Hin. congruence.
    + intros [_ H]. f_equal. apply Hin. apply H. reflexivity.
  - apply String.eqb_neq in Ea, Ean. split; [|reflexivity].
    intros _. split; intros E; congruence.
Qed.

Lemma lexicon_word_not_empty adjs n :
  Forall (fun a => In a adjectives) adjs -> In n nouns ->
  exists w1 ws, adjs ++ [n] = w1 :: ws /\ w1 <> "".
Proof.
  intros Hadjs Hn. destruct adjs as [|a adjs]; simpl.
  - exists n, []. split; [reflexivity|].
    simpl in Hn. intuition (subst; discriminate).
  - exists a, (adjs ++ [n]). split; [reflexivity|].
    inversion Hadjs as [|a' adjs' Ha _]; subst.
    simpl in Ha. intuition (subst; discriminate).
Qed.

Lemma NP_sound T c rest :
  derives Grammar.NP T c rest ->
  exists d adjs n,
    In d articles /\ Forall (fun a => In a adjectives) adjs /\ In n nouns
    /\ agrees d (hd "" (adjs ++ [n]))
    /\ T = d :: adjs ++ n :: rest /\ c = np_tree d adjs n.
Proof.
  intros H. unfold Grammar.NP, FilterValidArticle in H.
  inversion H as [| | | |t p T' c0 T1 Hf| | | |]; subst; clear H.
  inversion Hf as [| | | | |pr p T' c' T1 Hseq Hpr| | |]; subst; clear Hf.
  inversion Hseq as [|p1 p2 T' c1 T1 c2 T2 HC HNP0| | | | | | |];
    subst; clear Hseq.
  destruct (derives_tagged "Compl" (word "a" || word "an" || word "the")
                           eq_refl _ _ _ HC) as [d [Hd [HT E]]].
  subst c1 T.
  destruct (NP0_sound _ _ _ HNP0) as [adjs [n [Hadjs [Hn [-> ->]]]]].
  assert (Hagr : agrees d (hd "" (adjs ++ [n]))).
  { destruct (lexicon_word_not_empty adjs n Hadjs Hn) as [w1 [ws [E Hw1]]].
    rewrite E. simpl. unfold Constituent_add in Hpr.
    cbn [words app] in Hpr. rewrite words_np0_tree, E in Hpr.
    apply (predicate_agrees d (np0_tree adjs n) w1 ws Hw1). exact Hpr. }
  exists d, adjs, n.
  split; [exact Hd|split; [exact Hadjs|split; [exact Hn|split; [exact Hagr|]]]].
  split; reflexivity.
Qed.

Lemma NP_complete d adjs n rest l :
  In d articles -> Forall (fun a => In a adjectives) adjs -> In n nouns ->
  agrees d (hd "" (adjs ++ [n])) ->
  produces Grammar.NP (d :: adjs ++ n :: rest) l ->
  In (np_tree d adjs n, rest) l.
Proof.
  intros Hd Hadjs Hn Hagr Hl. unfold Grammar.NP, FilterValidArticle in Hl.
  apply produces_TagParser in Hl. destruct Hl as [l1 [H1 ->]].
  apply produces_FilterParser in H1. destruct H1 as [l0 [H0 [_ ->]]].
  apply produces_SeqParser in H0. destruct H0 as [lC [ls [HC [HF ->]]]].
  apply (in_map (relabel "NP") _
                ((mkConstituent (Some "Compl") [] [d]
                  + np0_tree adjs n)%cons, rest)).
  apply filter_In. split.
  - apply (in_seq_results
             _ lC ls (mkConstituent (Some "Compl") [] [d], adjs ++ n :: rest)
             (np0_tree adjs n, rest) HF).
    + apply (tagged_complete "Compl" (word "a" || word "an" || word "the")
                             eq_refl d _ lC Hd HC).
    + intros l2 Hl2. apply NP0_complete; assumption.
  - unfold accepted, Constituent_add. cbn [fst words app].
    destruct (lexicon_word_not_empty adjs n Hadjs Hn) as [w1 [ws [E Hw1]]].
    rewrite words_np0_tree, E. rewrite E in Hagr. simpl in Hagr.
    rewrite (proj2 (predicate_agrees d (np0_tree adjs n) w1 ws Hw1) Hagr).
    reflexivity.
Qed.

Lemma S_sound T c rest :
  derives Grammar.S T c rest ->
  exists d adjs n v,
    In d articles /\ Forall (fun a => In a adjectives) adjs /\ In n nouns
    /\ In v verbs /\ agrees d (hd "" (adjs ++ [n]))
    /\ T = d :: adjs ++ n :: v :: rest /\ c = s_tree d adjs n v.
Proof.
  intros H. unfold Grammar.S in H.
  inversion H as [| | | |t p T0 c0 T1 Hseq| | | |]; subst; clear H.
  inversion Hseq as [|p1 p2 T' c1 T1 c2 T2 HNP HVP| | | | | | |];
    subst; clear Hseq.
  destruct (derives_tagged "VP" Grammar.V eq_refl _ _ _ HVP)
    as [v [Hv [HT ->]]].
  subst T1.
  destruct (NP_sound _ _ _ HNP)
    as [d [adjs [n [Hd [Hadjs [Hn [Hagr [-> ->]]]]]]]].
  exists d, adjs, n, v.
  split; [exact Hd|split; [exact Hadjs|split; [exact Hn|split; [exact Hv|]]]].
  split; [exact Hagr|split; reflexivity].
Qed.

Lemma S_complete d adjs n v rest l :
  In d articles -> Forall (fun a => In a adjectives) adjs -> In n nouns ->
  In v verbs -> agrees d (hd "" (adjs ++ [n])) ->
  produces Grammar.S (d :: adjs ++ n :: v :: rest) l ->
  In (s_tree d adjs n v, rest) l.
Proof.
  intros Hd Hadjs Hn Hv Hagr Hl. unfold Grammar.S in Hl.
  apply produces_TagParser in Hl. destruct Hl as [l0 [H0 ->]].
  apply produces_SeqParser in H0. destruct H0 as [lNP [ls [HNP [HF ->]]]].
  apply (in_map (relabel "S") _
                ((np_tree d adjs n
                  + mkConstituent (Some "VP") [] [v])%cons, rest)).
  apply (in_seq_results
           _ lNP ls (np_tree d adjs n, v :: rest)
           (mkConstituent (Some "VP") [] [v], rest) HF).
  - apply NP_complete; assumption.
  - intros l2 Hl2.
    apply (tagged_complete "VP" Grammar.V eq_refl v rest l2 Hv Hl2).
Qed.

(** X20. [S] accepts exactly the sentences made of an article, adjectives,
    a noun and a verb of the grammar in which the article agrees with the
    word after it: every result of [S] on [T] is the tree of such a
    sentence that starts [T], and whenever [S] runs to its end on [T],
    every such sentence at the start of [T] is among its results. *)
Theorem S_language :
  (forall fuel T c rest,
      In (c, rest) (items (call fuel Grammar.S T)) ->
      exists d adjs n v,
        In d articles /\ Forall (fun a => In a adjectives) adjs
        /\ In n nouns /\ In v verbs /\ agrees d (hd "" (adjs ++ [n]))
        /\ T = d :: adjs ++ n :: v :: rest /\ c = s_tree d adjs n v)
  /\ (forall d adjs n v rest l,
         In d articles -> Forall (fun a => In a adjectives) adjs ->
         In n nouns -> In v verbs -> agrees d (hd "" (adjs ++ [n])) ->
         produces Grammar.S (d :: adjs ++ n :: v :: rest) l ->
         In (s_tree d adjs n v, rest) l).
Proof.
  split.
  - intros fuel T c rest Hin. apply call_sound in Hin.
    apply S_sound. exact Hin.
  - apply S_complete.
Qed.

Lemma S_language_witness :
  In (s_tree "an" ["adorable"] "ant" "jumped", @nil string)
     [(s_tree "an" ["adorable"] "ant" "jumped", @nil string)].
Proof.
  apply (proj2 S_language "an" ["adorable"] "ant" "jumped" (@nil string)).
  - simpl; auto.
  - repeat (apply Forall_cons || apply Forall_nil); simpl; auto 10.
  - simpl; auto.
  - simpl; auto.
  - split; [discriminate|]. intros _. exists "a"%char, "dorable".
    split; [reflexivity|left; reflexivity].
  - exists 30. vm_compute. reflexivity.
Defined.

Lemma filter_relabel t (l : list Result) :
  filter consumed_all (map (relabel t) l)
  = map (relabel t) (filter consumed_all l).
Proof.
  induction l as [|[c rest] l IH]; [reflexivity|].
  cbn [map filter]. rewrite IH.
  destruct rest; reflexivity.
Qed.

Lemma filter_idempotent (A : Type) (f : A -> bool) (l : list A) :
  filter f (filter f l) = filter f l.
Proof.
  induction l as [|a l IH]; simpl; auto.
  destruct (f a) eqn:E; simpl; [rewrite E|]; congruence.
Qed.

(** X21. Anchoring composes: [whole(whole(p))] produces what [whole(p)]
    produces, and tagging before or after anchoring is the same,
    [whole(p) @ t] produces what [whole(p @ t)] produces. *)
Theorem WholeParser_composes (t : string) (p : Parser) (T : Tokens)
        (l : list Result) :
  (produces (whole (whole p)) T l <-> produces (whole p) T l)
  /\ (produces (TagParser t (whole p)) T l
      <-> produces (whole (TagParser t p)) T l).
Proof.
  unfold whole. split.
  - rewrite !produces_WholeParser. split.
    + intros [l1 [H1 ->]]. apply produces_WholeParser in H1.
      destruct H1 as [l0 [H0 ->]]. exists l0. split; [exact H0|].
      apply filter_idempotent.
    + intros [l0 [H0 ->]]. exists (filter consumed_all l0). split.
      * apply produces_WholeParser. eauto.
      * symmetry. apply filter_idempotent.
  - rewrite produces_TagParser, produces_WholeParser. split.
    + intros [l1 [H1 ->]]. apply produces_WholeParser in H1.
      destruct H1 as [l0 [H0 ->]]. exists (map (relabel t) l0). split.
      * apply produces_TagParser. eauto.
      * symmetry. apply filter_relabel.
    + intros [l1 [H1 ->]]. apply produces_TagParser in H1.
      destruct H1 as [l0 [H0 ->]]. exists (filter consumed_all l0). split.
      * apply produces_WholeParser. eauto.
      * apply filter_relabel.
Qed.

(* ================================================================== *)
(** * At most one parse of a sentence *)

Lemma decreasing_weaken l : forall B B',
  B <= B' -> decreasing B l -> decreasing B' l.
Proof. destruct l as [|r l]; simpl; intros B B' HB H; [exact I|]. split; [lia|tauto]. Qed.

Lemma decreasing_map (f : Result -> Result) :
  (forall r, snd (f r) = snd r) ->
  forall l B, decreasing B l -> decreasing B (map f l).
Proof.
  intros Hf. induction l as [|r l IH]; simpl; intros B H; [exact I|].
  rewrite Hf. destruct H as [H1 H2]. auto.
Qed.

Lemma decreasing_filter (f : Result -> bool) :
  forall l B, decreasing B l -> decreasing B (filter f l).
Proof.
  induction l as [|r l IH]; simpl; intros B H; [exact I|].
  destruct H as [H1 H2]. destruct (f r); simpl.
  - auto.
  - apply decreasing_weaken with (List.length (snd r)); [lia|auto].
Qed.

Lemma decreasing_app : forall l1 l2 B,
  decreasing B l1 -> decreasing B l2 ->
  (forall r1, In r1 l1 -> decreasing (List.length (snd r1)) l2) ->
  decreasing B (l1 ++ l2).
Proof.
  induction l1 as [|r l1 IH]; simpl; intros l2 B H1 H2 H; [exact H2|].
  destruct H1 as [Hr H1]. split; [exact Hr|]. apply IH; auto.
Qed.

Lemma decreasing_whole : forall l B,
  decreasing B l -> List.length (filter consumed_all l) <= 1.
Proof.
  induction l as [|[c rest] l IH]; simpl; intros B H; [lia|].
  destruct H as [_ H]. unfold consumed_all at 1. simpl in *.
  destruct rest as [|t rest]; [|eauto].
  destruct l as [|r l]; [simpl; lia|]. simpl in H. lia.
Qed.

Lemma lexical_count p : one_word p = true ->
  forall t T l, produces p (t :: T) l ->
  List.length l = count_occ string_dec (lexicon p) t.
Proof.
  induction p as [w|p1 IH1 p2 IH2|p1 IH1 p2 IH2|t0 p IH|predicate p IH
                 |fp IH|k|p IH|p IH];
    simpl; intros Hp t T l Hl; try discriminate.
  - destruct (string_dec w t) as [->|Hne].
    + rewrite (produces_unique (WordParser t) (t :: T) l
                               [(mkConstituent None [] [t], T)] Hl);
        [reflexivity|].
      exists 1. simpl. rewrite String.eqb_refl. reflexivity.
    + rewrite (produces_unique (WordParser w) (t :: T) l [] Hl);
        [reflexivity|].
      exists 1. simpl.
      assert (E : String.eqb t w = false) by (apply String.eqb_neq; congruence).
      rewrite E. reflexivity.
  - apply andb_true_iff in Hp. destruct Hp as [Hp1 Hp2].
    apply produces_AltParser in Hl. destruct Hl as [l1 [l2 [H1 [H2 ->]]]].
    rewrite List.length_app, count_occ_app.
    rewrite (IH1 Hp1 t T l1 H1), (IH2 Hp2 t T l2 H2). reflexivity.
  - apply produces_TagParser in Hl. destruct Hl as [l0 [H0 ->]].
    rewrite List.length_map. apply (IH Hp t T l0 H0).
Qed.

(** A lexical category without repeated word has at most one result, which
    consumes one token. *)
Lemma lexical_shape p : one_word p = true -> NoDup (lexicon p) ->
  forall T l, produces p T l ->
  l = [] \/ exists c t T', T = t :: T' /\ l = [(c, T')].
Proof.
  intros Hp Hnd T l Hl. destruct l as [|[c rest] l]; [left; reflexivity|].
  right.
  assert (Hd : derives p T c rest)
    by (apply (produces_sound p T _ c rest Hl); left; reflexivity).
  destruct (derives_lexical p Hp _ _ _ Hd) as [w [_ [HT _]]].
  exists c, w, rest. split; [exact HT|]. subst T.
  pose proof (lexical_count p Hp w rest _ Hl) as Hc.
  pose proof (proj1 (NoDup_count_occ string_dec (lexicon p)) Hnd w) as Hle.
  simpl in Hc. destruct l; [reflexivity|simpl in Hc; lia].
Qed.

Lemma NoDup_nouns : NoDup (lexicon Grammar.N).
Proof. repeat constructor; simpl; intuition discriminate. Qed.

Lemma NoDup_adjectives : NoDup (lexicon Grammar.Adj).
Proof. repeat constructor; simpl; intuition discriminate. Qed.

Lemma NoDup_articles : NoDup (lexicon Grammar.Compl).
Proof. repeat constructor; simpl; intuition discriminate. Qed.

Lemma NoDup_verbs : NoDup (lexicon Grammar.VP).
Proof. repeat constructor; simpl; intuition discriminate. Qed.

Lemma lexical_decreasing p : one_word p = true -> NoDup (lexicon p) ->
  forall T l, produces p T l -> decreasing (List.length T) l.
Proof.
  intros Hp Hnd T l Hl.
  destruct (lexical_shape p Hp Hnd T l Hl) as [->|[c [t [T' [-> ->]]]]];
    simpl; auto.
Qed.

(** A sequence after a lexical category: the results are those of the
    second parser on the tokens after the first. *)
Lemma decreasing_after_lexical p1 p2 : one_word p1 = true ->
  NoDup (lexicon p1) ->
  (forall T l, produces p2 T l -> decreasing (List.length T) l) ->
  forall T l, produces (SeqParser p1 p2) T l ->
              decreasing (Nat.pred (List.length T)) l.
Proof.
  intros Hp Hnd H2 T l Hl.
  apply produces_SeqParser in Hl. destruct Hl as [l1 [ls [H1 [HF ->]]]].
  destruct (lexical_shape p1 Hp Hnd T l1 H1) as [->|[c [t [T' [-> ->]]]]].
  - inversion HF; subst. exact I.
  - inversion HF as [|r1 l2 l1' ls' Hl2 HF']; subst.
    inversion HF'; subst. rewrite seq_results_cons. simpl.
    rewrite app_nil_r.
    apply decreasing_map; [reflexivity|]. apply (H2 T' l2 Hl2).
Qed.

Lemma NP0_decreasing : forall T l,
  produces Grammar.NP0 T l -> decreasing (List.length T) l.
Proof.
  intros T. remember (List.length T) as n eqn:En. revert T En.
  induction n as [n IH] using lt_wf_ind. intros T En l Hl.
  apply NP0_unfold in Hl. apply produces_TagParser in Hl.
  destruct Hl as [l0 [H0 ->]]. apply decreasing_map; [reflexivity|].
  apply produces_AltParser in H0. destruct H0 as [lN [lS [HN [HS ->]]]].
  apply produces_SeqParser in HS. destruct HS as [lA [ls [HA [HF ->]]]].
  pose proof (lexical_shape Grammar.N eq_refl NoDup_nouns T lN HN) as HlN.
  destruct (lexical_shape Grammar.Adj eq_refl NoDup_adjectives T lA HA)
    as [->|[c [t [T' [-> ->]]]]].
  - inversion HF; subst. rewrite app_nil_r.
    apply (lexical_decreasing Grammar.N eq_refl NoDup_nouns _ _ HN).
  - inversion HF as [|r1 l2 l1' ls' Hl2 HF']; subst.
    inversion HF'; subst. rewrite seq_results_cons. simpl in *.
    rewrite app_nil_r.
    assert (Hd : decreasing (List.length T')
                   (map (fun r2 : Result =>
                           ((c + fst r2)%cons, snd r2)) l2)).
    { apply decreasing_map; [reflexivity|].
      apply (IH (List.length T')) with (T := T'); [lia|reflexivity|exact Hl2]. }
    apply decreasing_app.
    + apply (lexical_decreasing Grammar.N eq_refl NoDup_nouns _ _ HN).
    + apply decreasing_weaken with (List.length T'); [lia|exact Hd].
    + intros r1 Hr1.
      destruct HlN as [->|[cN [tN [TN [E ->]]]]]; [contradiction|].
      destruct Hr1 as [<-|[]]. inversion E; subst. exact Hd.
Qed.

Lemma NP_decreasing T l :
  produces Grammar.NP T l -> decreasing (List.length T) l.
Proof.
  intros Hl. unfold Grammar.NP, FilterValidArticle in Hl.
  apply produces_TagParser in Hl. destruct Hl as [l1 [H1 ->]].
  apply decreasing_map; [reflexivity|].
  apply produces_FilterParser in H1. destruct H1 as [l0 [H0 [_ ->]]].
  apply decreasing_filter.
  apply decreasing_weaken with (Nat.pred (List.length T)); [lia|].
  apply (decreasing_after_lexical Grammar.Compl Grammar.NP0 eq_refl
                                  NoDup_articles NP0_decreasing T l0 H0).
Qed.

(** A sequence before a lexical category: each result of the first parser
    gives at most one result, one token shorter. *)
Lemma decreasing_before_lexical p2 : one_word p2 = true ->
  NoDup (lexicon p2) ->
  forall l1 ls,
    Forall2 (fun (r1 : Result) l2 => produces p2 (snd r1) l2) l1 ls ->
    forall B, decreasing B l1 -> decreasing (Nat.pred B) (seq_results l1 ls).
Proof.
  intros Hp Hnd l1 ls HF.
  induction HF as [|[c1 T1] l2 l1 ls Hl2 _ IH]; intros B H; [exact I|].
  simpl in H. destruct H as [HB H]. rewrite seq_results_cons.
  specialize (IH _ H). simpl in Hl2.
  destruct (lexical_shape p2 Hp Hnd T1 l2 Hl2) as [->|[c [t [T' [-> ->]]]]].
  - simpl. apply decreasing_weaken with (Nat.pred (List.length T1));
      [lia|exact IH].
  - simpl in *. split; [lia|exact IH].
Qed.

Lemma S_decreasing T l :
  produces Grammar.S T l -> decreasing (List.length T) l.
Proof.
  intros Hl. unfold Grammar.S in Hl.
  apply produces_TagParser in Hl. destruct Hl as [l0 [H0 ->]].
  apply decreasing_map; [reflexivity|].
  apply produces_SeqParser in H0. destruct H0 as [lNP [ls [HNP [HF ->]]]].
  apply decreasing_weaken with (Nat.pred (List.length T)); [lia|].
  apply (decreasing_before_lexical Grammar.VP eq_refl NoDup_verbs lNP ls HF).
  apply NP_decreasing. exact HNP.
Qed.

(** X22. On every token sequence, the results of [NP0], of [NP] and of
    [S] come with strictly shorter and shorter remainders, the shortest
    match first, so that no two results leave the same tokens; and whenever
    [whole(S)] runs to its end, it has at most one parse. *)
Theorem at_most_one_parse (T : Tokens) :
  (forall l, produces Grammar.NP0 T l -> decreasing (List.length T) l)
  /\ (forall l, produces Grammar.NP T l -> decreasing (List.length T) l)
  /\ (forall l, produces Grammar.S T l -> decreasing (List.length T) l)
  /\ (forall l, produces (whole Grammar.S) T l -> List.length l <= 1).
Proof.
  split; [apply NP0_decreasing|split; [apply NP_decreasing|split;
    [apply S_decreasing|]]].
  intros l Hl. apply produces_WholeParser in Hl. destruct Hl as [l0 [H0 ->]].
  apply (decreasing_whole l0 (List.length T)). apply S_decreasing. exact H0.
Qed.

Lemma at_most_one_parse_witness :
  List.length [(the_quick_brown_fox_jumped, @nil string)] <= 1.
Proof.
  apply (proj2 (proj2 (proj2
           (at_most_one_parse ["the"; "quick"; "brown"; "fox"; "jumped"])))).
  exists 30. vm_compute. reflexivity.
Defined.

(* ================================================================== *)
(** * The depth of the calls of the grammar *)

(** The fuel of a call is the nesting depth of calls that it is allowed.
    The following lemmas keep track of it through the combinators. *)
Lemma call_TagParser_of_list n t p T l0 :
  call n p T = of_list l0 ->
  call (Datatypes.S n) (TagParser t p) T = of_list (map (relabel t) l0).
Proof.
  intros H. rewrite call_TagParser_emit. apply for_each_emit.
  exists l0. split; [exact H|split].
  - apply Forall_forall. intros; discriminate.
  - symmetry. apply flat_map_singleton.
Qed.

Lemma call_AltParser_of_list n p1 p2 T l1 l2 :
  call n p1 T = of_list l1 -> call n p2 T = of_list l2 ->
  call (Datatypes.S n) (AltParser p1 p2) T = of_list (l1 ++ l2).
Proof. intros H1 H2. simpl. rewrite H1, H2. apply yield_from_of_list. Qed.

Lemma call_SeqParser_of_list n p1 p2 T l1 ls :
  call n p1 T = of_list l1 ->
  Forall2 (fun (r1 : Result) l2 => call n p2 (snd r1) = of_list l2) l1 ls ->
  call (Datatypes.S n) (SeqParser p1 p2) T = of_list (seq_results l1 ls).
Proof.
  intros H1 HF. rewrite call_SeqParser, H1.
  unfold seq_results. apply for_each_of_list_concat.
  clear H1. induction HF as [|[c1 T1] l2 l1 ls H2 _ IH]; simpl.
  - constructor.
  - constructor; [|exact IH]. simpl in H2. rewrite H2.
    rewrite <- flat_map_singleton.
    apply for_each_of_list. intros [c2 T2] _. reflexivity.
Qed.

Lemma call_FilterParser_of_list n predicate p T l0 :
  call n p T = of_list l0 ->
  Forall (fun r : Result => predicate (fst r) <> None) l0 ->
  call (Datatypes.S n) (FilterParser predicate p) T
  = of_list (filter (accepted predicate) l0).
Proof.
  intros H HF. rewrite call_FilterParser_emit. apply for_each_emit.
  exists l0. split; [exact H|split; [|symmetry; apply kept_accepted]].
  apply Forall_impl with (2 := HF). intros b Hb.
  destruct (predicate (fst b)) as [[|]|]; congruence.
Qed.

Lemma call_WholeParser_of_list n p T l0 :
  call n p T = of_list l0 ->
  call (Datatypes.S n) (WholeParser p) T = of_list (filter consumed_all l0).
Proof.
  intros H. rewrite call_WholeParser_emit. apply for_each_emit.
  exists l0. split; [exact H|split].
  - apply Forall_forall. intros b _. destruct (consumed_all b); discriminate.
  - symmetry. apply kept_filter.
Qed.

Lemma call_TagParser_inv n t p T l :
  call (Datatypes.S n) (TagParser t p) T = of_list l ->
  exists l0, call n p T = of_list l0.
Proof.
  intros H. rewrite call_TagParser_emit in H. apply for_each_emit in H.
  destruct H as [l0 [H0 _]]. eauto.
Qed.

Lemma call_AltParser_inv n p1 p2 T l :
  call (Datatypes.S n) (AltParser p1 p2) T = of_list l ->
  (exists l1, call n p1 T = of_list l1)
  /\ (exists l2, call n p2 T = of_list l2).
Proof.
  intros H. simpl in H. apply yield_from_of_list_inv in H.
  destruct H as [l1 [l2 [H1 [H2 _]]]]. eauto.
Qed.

Lemma call_SeqParser_inv n p1 p2 T l :
  call (Datatypes.S n) (SeqParser p1 p2) T = of_list l ->
  exists l1, call n p1 T = of_list l1
             /\ forall c1 T1, In (c1, T1) l1 ->
                              exists l2, call n p2 T1 = of_list l2.
Proof.
  intros H. rewrite call_SeqParser in H. apply for_each_of_list_inv in H.
  destruct H as [l1 [lss [H1 [HF _]]]]. exists l1. split; [exact H1|].
  clear H1. induction HF as [|[c T'] lsb l1 lss Hb _ IH]; intros c1 T1 Hin.
  - contradiction.
  - destruct Hin as [E|Hin]; [|exact (IH c1 T1 Hin)].
    inversion E; subst.
    apply for_each_of_list_inv in Hb. destruct Hb as [l2 [_ [H2 _]]]. eauto.
Qed.

(** A parser without recursion or repetition runs to its end within its
    height, whatever the tokens. *)
Lemma loop_free_within p : loop_free p ->
  forall n T, height p <= n -> exists l, call n p T = of_list l.
Proof.
  induction p as [w|p1 IH1 p2 IH2|p1 IH1 p2 IH2|t p IH|predicate p IH
                 |fp IH|k|p IH|p IH];
    simpl; intros Hp n T Hn; try contradiction;
    (destruct n as [|n]; [lia|]).
  - destruct T as [|t T]; [exists []; reflexivity|]. simpl.
    destruct (String.eqb t w); eexists; [|exact (eq_refl (of_list []))].
    exact (eq_refl (of_list [_])).
  - destruct Hp as [Hp1 Hp2]. destruct (IH1 Hp1 n T) as [l1 H1]; [lia|].
    destruct (Forall2_total _ _
                (fun (r1 : Result) l2 => call n p2 (snd r1) = of_list l2)
                (fun r1 => IH2 Hp2 n (snd r1) ltac:(lia)) l1) as [ls Hls].
    exists (seq_results l1 ls). apply call_SeqParser_of_list; assumption.
  - destruct Hp as [Hp1 Hp2].
    destruct (IH1 Hp1 n T) as [l1 H1]; [lia|].
    destruct (IH2 Hp2 n T) as [l2 H2]; [lia|].
    exists (l1 ++ l2). apply call_AltParser_of_list; assumption.
  - destruct (IH Hp n T) as [l0 H0]; [lia|].
    eexists. apply call_TagParser_of_list. exact H0.
  - destruct Hp as [Hpred Hp]. destruct (IH Hp n T) as [l0 H0]; [lia|].
    eexists. apply call_FilterParser_of_list; [exact H0|].
    apply Forall_forall. intros r _. apply Hpred.
  - destruct (IH Hp n T) as [l0 H0]; [lia|].
    eexists. apply call_WholeParser_of_list. exact H0.
Qed.

Lemma call_NP0 n T :
  call (Datatypes.S n) Grammar.NP0 T
  = call n ((Grammar.N || (Grammar.Adj + Grammar.NP0)) @@ "NP")%parser T.
Proof. reflexivity. Qed.

Lemma lexical_within p n T :
  one_word p = true -> height p <= n -> exists l, call n p T = of_list l.
Proof.
  intros Hp Hn. apply loop_free_within; [|exact Hn].
  apply one_word_loop_free. exact Hp.
Qed.

Lemma NP0_within : forall T,
  exists l, call (4 * List.length T + 10) Grammar.NP0 T = of_list l.
Proof.
  intros T. remember (List.length T) as k eqn:Ek. revert T Ek.
  induction k as [k IH] using lt_wf_ind. intros T Ek.
  replace (4 * k + 10)
    with (Datatypes.S (Datatypes.S (Datatypes.S (Datatypes.S (4 * k + 6)))))
    by lia.
  destruct (lexical_within Grammar.N (Datatypes.S (4 * k + 6)) T eq_refl)
    as [lN HN]; [simpl; lia|].
  destruct (lexical_within Grammar.Adj (4 * k + 6) T eq_refl)
    as [lA HA]; [simpl; lia|].
  destruct (Forall2_total_in _ _
              (fun (r1 : Result) l2 =>
                 call (4 * k + 6) Grammar.NP0 (snd r1) = of_list l2) lA)
    as [ls Hls].
  { intros [c1 T1] Hin. simpl.
    assert (Hd : derives Grammar.Adj T c1 T1).
    { apply (call_sound (4 * k + 6)). rewrite HA, items_of_list. exact Hin. }
    apply (loop_free_consumes _ (one_word_loop_free Grammar.Adj eq_refl))
      in Hd.
    destruct (IH (List.length T1) ltac:(lia) T1 eq_refl) as [l2 H2].
    exists l2.
    apply (call_of_list_mono _ _ _ _ _ H2). lia. }
  exists (map (relabel "NP") (lN ++ seq_results lA ls)).
  rewrite call_NP0. apply call_TagParser_of_list.
  apply call_AltParser_of_list; [exact HN|].
  apply call_SeqParser_of_list; assumption.
Qed.

Lemma NP_within : forall T,
  exists l, call (4 * List.length T + 13) Grammar.NP T = of_list l.
Proof.
  intros T.
  replace (4 * List.length T + 13)
    with (Datatypes.S (Datatypes.S (Datatypes.S (4 * List.length T + 10))))
    by lia.
  set (n := 4 * List.length T + 10).
  destruct (lexical_within Grammar.Compl n T eq_refl) as [lC HC];
    [unfold n; simpl; lia|].
  destruct (Forall2_total_in _ _
              (fun (r1 : Result) l2 =>
                 call n Grammar.NP0 (snd r1) = of_list l2) lC)
    as [ls Hls].
  { intros [c1 T1] Hin. simpl.
    assert (Hd : derives Grammar.Compl T c1 T1).
    { apply (call_sound n). rewrite HC, items_of_list. exact Hin. }
    apply (loop_free_consumes _ (one_word_loop_free Grammar.Compl eq_refl))
      in Hd.
    destruct (NP0_within T1) as [l2 H2]. exists l2.
    apply (call_of_list_mono _ _ _ _ _ H2). unfold n. lia. }
  pose proof (call_SeqParser_of_list n Grammar.Compl Grammar.NP0 T lC ls
                                     HC Hls) as Hseq.
  eexists. unfold Grammar.NP, FilterValidArticle.
  apply call_TagParser_of_list.
  apply call_FilterParser_of_list; [exact Hseq|].
  apply Forall_forall. intros [c rest] Hin. simpl.
  apply predicate_two_words. apply (Compl_NP0_two_words T c rest).
  apply (call_sound (Datatypes.S n)). rewrite Hseq, items_of_list. exact Hin.
Qed.

Lemma S_within : forall T,
  exists l, call (4 * List.length T + 15) Grammar.S T = of_list l.
Proof.
  intros T.
  replace (4 * List.length T + 15)
    with (Datatypes.S (Datatypes.S (4 * List.length T + 13))) by lia.
  set (n := 4 * List.length T + 13).
  destruct (NP_within T) as [lNP HNP]. fold n in HNP.
  destruct (Forall2_total _ _
              (fun (r1 : Result) l2 =>
                 call n Grammar.VP (snd r1) = of_list l2)
              (fun r1 => lexical_within Grammar.VP n (snd r1) eq_refl
                                        ltac:(unfold n; simpl; lia)) lNP)
    as [ls Hls].
  eexists. unfold Grammar.S. apply call_TagParser_of_list.
  apply call_SeqParser_of_list; eassumption.
Qed.

Lemma Forall2_In_l (A B : Type) (Q : A -> B -> Prop) l ls a :
  Forall2 Q l ls -> In a l -> exists b, Q a b.
Proof.
  induction 1 as [|x y l ls Hq _ IH]; intros Hin; [contradiction|].
  destruct Hin as [->|Hin]; eauto.
Qed.

(** With [k] adjectives before the noun, the calls of [NP0] nest deeper
    than [4 * k]: one call each of [RecursiveParser], [TagParser],
    [AltParser] and [SeqParser] for every adjective. *)
Lemma NP0_needs_depth : forall k rest fuel l,
  fuel <= 4 * k ->
  call fuel Grammar.NP0 (repeat "quick" k ++ "fox" :: rest) <> of_list l.
Proof.
  induction k as [|k IH]; intros rest fuel l Hf H.
  - assert (fuel = 0) by lia. subst fuel.
    symmetry in H. apply of_list_not_OutOfFuel in H. exact H.
  - simpl repeat in H. simpl app in H.
    destruct fuel as [|f1];
      [symmetry in H; apply of_list_not_OutOfFuel in H; exact H|].
    rewrite call_NP0 in H.
    destruct f1 as [|f2];
      [symmetry in H; apply of_list_not_OutOfFuel in H; exact H|].
    apply call_TagParser_inv in H. destruct H as [l0 H].
    destruct f2 as [|f3];
      [symmetry in H; apply of_list_not_OutOfFuel in H; exact H|].
    apply call_AltParser_inv in H. destruct H as [_ [lS H]].
    destruct f3 as [|f4];
      [symmetry in H; apply of_list_not_OutOfFuel in H; exact H|].
    apply call_SeqParser_inv in H. destruct H as [lA [HA HNP0]].
    destruct (HNP0 (mkConstituent (Some "Adj") [] ["quick"])
                   (repeat "quick" k ++ "fox" :: rest)) as [l2 H2].
    + apply (tagged_complete
               "Adj" (word "quick" || word "brown" || word "table"
                      || word "caught" || word "adorable")
               eq_refl "quick" _ lA).
      * simpl. auto.
      * exists f4. exact HA.
    + apply (IH rest f4 l2); [lia|exact H2].
Qed.

(** X13. The grammar runs to its end whenever it is allowed enough nested
    calls, and the depth it needs grows with the input.  On every token
    sequence [T], [NP0] runs to its end within a nesting depth of
    [4 * len(T) + 10] calls of parsers, [NP] within [4 * len(T) + 13], [S]
    within [4 * len(T) + 15] and [whole(S)] within [4 * len(T) + 16]; on
    [k] adjectives followed by a noun, [NP0] does not run to its end within
    a depth of [4 * k].  So the program ends on the inputs for which the
    recursion limit of the interpreter leaves that depth, and fails with
    its recursion error on long ones. *)
Theorem grammar_call_depth :
  (forall T,
      (exists l, call (4 * List.length T + 10) Grammar.NP0 T = of_list l)
      /\ (exists l, call (4 * List.length T + 13) Grammar.NP T = of_list l)
      /\ (exists l, call (4 * List.length T + 15) Grammar.S T = of_list l)
      /\ (exists l, call (4 * List.length T + 16) (whole Grammar.S) T
                    = of_list l))
  /\ (forall k rest fuel l,
         fuel <= 4 * k ->
         call fuel Grammar.NP0 (repeat "quick" k ++ "fox" :: rest)
         <> of_list l).
Proof.
  split; [|exact NP0_needs_depth].
  intros T.
  split; [apply NP0_within|split; [apply NP_within|split; [apply S_within|]]].
  destruct (S_within T) as [l0 H0]. exists (filter consumed_all l0).
  replace (4 * List.length T + 16)
    with (Datatypes.S (4 * List.length T + 15)) by lia.
  apply call_WholeParser_of_list. exact H0.
Qed.
